(** * Reverse-mode automatic differentiation: the computation graph of
    [03-advanced/03-reverse-autodiff/autodiff.cpp]

    The C++ heap of [Var] objects is a finite map from addresses to records,
    a [double] is a primitive IEEE-754 binary64 float, a [std::set<Var*>] is a
    finite set of addresses, and a [std::function<double()>] closure is a
    function of the memory it reads when it is called.  Dereferencing an
    address that holds no [Var] has no defined behaviour in C++; here it
    yields [None]. *)

From Stdlib Require Import Floats ZArith Lia.
From stdpp Require Import gmap list relations.

#[local] Set Warnings "-clear-no-such-hyp".


(** ** Data model *)

Open Scope float_scope.

(** [Var*]: the address of a node. *)
Definition loc := nat.

(** What a gradient closure can read through the pointers it captured:
    [p->val] and [p->grad]. *)
Record View := {
  peek_val : loc → option float;
  peek_grad : loc → option float
}.

(** [struct BackwardEdge { Var* input; std::function<double()> grad_fn; }] *)
Record BackwardEdge := {
  input : loc;
  grad_fn : View → option float
}.

(** [struct Var { double val; double grad; std::vector<BackwardEdge> backward_edges; }] *)
Record Var := {
  val : float;
  grad : float;
  backward_edges : list BackwardEdge
}.

Abbreviation Heap := (gmap loc Var).

Definition view (h : Heap) : View :=
  {| peek_val p := val <$> h !! p; peek_grad p := grad <$> h !! p |}.

(** [Var(double v) : val(v), grad(0.0) {}] *)
Definition Var_ctor (v : float) : Var :=
  {| val := v; grad := 0; backward_edges := [] |}.

(** [new Var(v)]: the object is placed at an address that holds no node. *)
Definition new_Var (h : Heap) (v : float) : loc * Heap :=
  let p := fresh (dom h) in (p, <[p := Var_ctor v]> h).

(** [this->grad = g] *)
Definition set_grad (h : Heap) (this : loc) (g : float) : option Heap :=
  v ← h !! this;
  Some (<[this := {| val := val v; grad := g; backward_edges := backward_edges v |}]> h).

(** [void Var::add_edge(Var* input, std::function<double()> grad_fn)] *)
Definition add_edge (h : Heap) (this inp : loc) (fn : View → option float)
  : option Heap :=
  v ← h !! this;
  Some (<[this := {| val := val v; grad := grad v;
                     backward_edges := backward_edges v
                                       ++ [{| input := inp; grad_fn := fn |}] |}]> h).

(** A range-based [for] loop whose body threads a state and may be undefined. *)
Fixpoint for_each {A S : Type} (l : list A) (body : S → A → option S) (s : S)
  : option S :=
  match l with
  | [] => Some s
  | x :: l' => s' ← body s x; for_each l' body s'
  end.

(** ** Traversals *)

(** [void Var::topo_sort(std::vector<Var*>& order, std::set<Var*>& visited)].
    The recursion of the source is bounded here by [fuel], the depth of the
    call stack; [topo_sort_terminates_from] shows which depth is enough. *)
Fixpoint topo_sort (fuel : nat) (h : Heap) (this : loc)
    (st : list loc * gset loc) : option (list loc * gset loc) :=
  match fuel with
  | O => None
  | S fuel' =>
    let '(order, visited) := st in
    if decide (this ∈ visited) then Some (order, visited)
    else
      v ← h !! this;
      '(order', visited') ←
        for_each (backward_edges v)
          (λ st' edge, topo_sort fuel' h (input edge) st')
          (order, {[this]} ∪ visited);
      Some (order' ++ [this], visited')
  end.

(** The inner loop of [backward]: every edge of [node] evaluates its closure
    on the current memory and adds the result to its input's [grad]. *)
Definition propagate (h : Heap) (node : loc) : option Heap :=
  v ← h !! node;
  for_each (backward_edges v)
    (λ hh edge,
       grad_contribution ← grad_fn edge (view hh);
       t ← hh !! input edge;
       Some (<[input edge := {| val := val t;
                                grad := grad t + grad_contribution;
                                backward_edges := backward_edges t |}]> hh))
    h.

(** [void Var::backward()] *)
Definition backward (h : Heap) (this : loc) : option Heap :=
  '(order, visited) ← topo_sort (S (size h)) h this ([], ∅);
  h1 ← set_grad h this 1;
  for_each (reverse order) propagate h1.

(** [void Var::zero_grad_helper(std::set<Var*>& visited)] *)
Fixpoint zero_grad_helper (fuel : nat) (this : loc) (st : Heap * gset loc)
  : option (Heap * gset loc) :=
  match fuel with
  | O => None
  | S fuel' =>
    let '(h, visited) := st in
    if decide (this ∈ visited) then Some (h, visited)
    else
      h1 ← set_grad h this 0;
      v ← h1 !! this;
      for_each (backward_edges v)
        (λ st' edge, zero_grad_helper fuel' (input edge) st')
        (h1, {[this]} ∪ visited)
  end.

(** [void Var::zero_grad()] *)
Definition zero_grad (h : Heap) (this : loc) : option Heap :=
  fst <$> zero_grad_helper (S (size h)) this (h, ∅).

(** ** Operations that build the computation graph *)

(** The functions of [<cmath>] the builders call. *)
Class Libm := {
  c_pow : float → float → float;
  c_sin : float → float;
  c_cos : float → float;
  c_exp : float → float;
  c_log : float → float
}.

Definition op_add (h : Heap) (a b : loc) : option (loc * Heap) :=
  va ← h !! a; vb ← h !! b;
  let '(result, h) := new_Var h (val va + val vb) in
  h ← add_edge h result a (λ m, g ← peek_grad m result; Some (g * 1.0));
  h ← add_edge h result b (λ m, g ← peek_grad m result; Some (g * 1.0));
  Some (result, h).

Definition op_sub (h : Heap) (a b : loc) : option (loc * Heap) :=
  va ← h !! a; vb ← h !! b;
  let '(result, h) := new_Var h (val va - val vb) in
  h ← add_edge h result a (λ m, g ← peek_grad m result; Some (g * 1.0));
  h ← add_edge h result b (λ m, g ← peek_grad m result; Some (g * -1.0));
  Some (result, h).

Definition op_mul (h : Heap) (a b : loc) : option (loc * Heap) :=
  va ← h !! a; vb ← h !! b;
  let '(result, h) := new_Var h (val va * val vb) in
  h ← add_edge h result a
        (λ m, g ← peek_grad m result; bv ← peek_val m b; Some (g * bv));
  h ← add_edge h result b
        (λ m, g ← peek_grad m result; av ← peek_val m a; Some (g * av));
  Some (result, h).

Definition op_div (h : Heap) (a b : loc) : option (loc * Heap) :=
  va ← h !! a; vb ← h !! b;
  let '(result, h) := new_Var h (val va / val vb) in
  h ← add_edge h result a
        (λ m, g ← peek_grad m result; bv ← peek_val m b; Some (g / bv));
  h ← add_edge h result b
        (λ m, g ← peek_grad m result; av ← peek_val m a; bv ← peek_val m b;
              Some (g * (- av / (bv * bv))));
  Some (result, h).

Definition op_neg (h : Heap) (a : loc) : option (loc * Heap) :=
  va ← h !! a;
  let '(result, h) := new_Var h (- val va) in
  h ← add_edge h result a (λ m, g ← peek_grad m result; Some (g * -1.0));
  Some (result, h).

Section libm.
Context `{Libm}.

Definition op_pow (h : Heap) (a : loc) (n : float) : option (loc * Heap) :=
  va ← h !! a;
  let '(result, h) := new_Var h (c_pow (val va) n) in
  h ← add_edge h result a
        (λ m, g ← peek_grad m result; av ← peek_val m a;
              Some (g * n * c_pow av (n - 1)));
  Some (result, h).

Definition op_sin (h : Heap) (a : loc) : option (loc * Heap) :=
  va ← h !! a;
  let '(result, h) := new_Var h (c_sin (val va)) in
  h ← add_edge h result a
        (λ m, g ← peek_grad m result; av ← peek_val m a; Some (g * c_cos av));
  Some (result, h).

Definition op_cos (h : Heap) (a : loc) : option (loc * Heap) :=
  va ← h !! a;
  let '(result, h) := new_Var h (c_cos (val va)) in
  h ← add_edge h result a
        (λ m, g ← peek_grad m result; av ← peek_val m a; Some (g * (- c_sin av)));
  Some (result, h).

Definition op_exp (h : Heap) (a : loc) : option (loc * Heap) :=
  va ← h !! a;
  let '(result, h) := new_Var h (c_exp (val va)) in
  h ← add_edge h result a
        (λ m, g ← peek_grad m result; rv ← peek_val m result; Some (g * rv));
  Some (result, h).

Definition op_log (h : Heap) (a : loc) : option (loc * Heap) :=
  va ← h !! a;
  let '(result, h) := new_Var h (c_log (val va)) in
  h ← add_edge h result a
        (λ m, g ← peek_grad m result; av ← peek_val m a; Some (g / av));
  Some (result, h).

End libm.

(** ** The examples of the test programme, as runs *)

(** The runs start in a heap [h0] that may hold other nodes already. *)

(** [x = Var(2); y = Var(3); f = (x + y) * x; f.backward()] *)
Definition composite_run (h0 : Heap) : option (float * float * float) :=
  let '(x, h) := new_Var h0 2 in
  let '(y, h) := new_Var h 3 in
  '(s, h) ← op_add h x y;
  '(f, h) ← op_mul h s x;
  fv ← val <$> h !! f;
  h ← backward h f;
  gx ← grad <$> h !! x;
  gy ← grad <$> h !! y;
  Some (fv, gx, gy).

(** [x = Var(v); y = x * x; y.backward()] *)
Definition diamond_run (h0 : Heap) (v : float) : option (float * float) :=
  let '(x, h) := new_Var h0 v in
  '(y, h) ← op_mul h x x;
  yv ← val <$> h !! y;
  h ← backward h y;
  gx ← grad <$> h !! x;
  Some (yv, gx).

(** [x = Var(2); y = Var(3); f = x * y; f.backward(); f.backward()] *)
Definition twice_run (h0 : Heap) : option (float * float * float) :=
  let '(x, h) := new_Var h0 2 in
  let '(y, h) := new_Var h 3 in
  '(f, h) ← op_mul h x y;
  h ← backward h f;
  h ← backward h f;
  gx ← grad <$> h !! x;
  gy ← grad <$> h !! y;
  gf ← grad <$> h !! f;
  Some (gx, gy, gf).

(** [a = Var(va); b = Var(vb); f = a / b; f.backward()] *)
Definition quotient_run (h0 : Heap) (va vb : float) : option (float * float) :=
  let '(a, h) := new_Var h0 va in
  let '(b, h) := new_Var h vb in
  '(f, h) ← op_div h a b;
  h ← backward h f;
  ga ← grad <$> h !! a;
  gb ← grad <$> h !! b;
  Some (ga, gb).

(** The graph of [x = Var(2); y = Var(3); f = x * y]: [x], [y] and [f] are
    at the addresses 0, 1 and 2. *)
Definition product_graph : Heap :=
  default ∅
    (let '(x, h) := new_Var ∅ 2 in
     let '(y, h) := new_Var h 3 in
     '(f, h) ← op_mul h x y;
     Some h).

(** [product_graph] after one [f.backward()]: the gradients of [x] and [y]
    are 3.0 and 2.0 there. *)
Definition accumulated_graph : Heap :=
  default ∅ (backward product_graph 2%nat).

(** The graph of [x = Var(2); y = Var(3); f = (x + y) * x]: [x], [y], [x + y]
    and [f] are at the addresses 0, 1, 2 and 3. *)
Definition composite_graph : Heap :=
  default ∅
    (let '(x, h) := new_Var ∅ 2 in
     let '(y, h) := new_Var h 3 in
     '(s, h) ← op_add h x y;
     '(f, h) ← op_mul h s x;
     Some h).

(** A stand-in for [<cmath>] where a closed instance is needed.  Its
    logarithm has the documented results at non-positive operands: NaN below
    zero and minus infinity at zero. *)
Definition sample_libm : Libm :=
  {| c_pow x n := x;
     c_sin x := x;
     c_cos x := x;
     c_exp x := x;
     c_log x := if x <? 0 then nan else if x =? 0 then neg_infinity else x |}.

Close Scope float_scope.

(** ** The public interface as a type of calls *)

(** The builder operations with their operand handles. *)
Inductive Builder :=
  | BAdd (a b : loc)
  | BSub (a b : loc)
  | BMul (a b : loc)
  | BDiv (a b : loc)
  | BNeg (a : loc)
  | BPow (a : loc) (n : float)
  | BSin (a : loc)
  | BCos (a : loc)
  | BExp (a : loc)
  | BLog (a : loc).

Definition operands (b : Builder) : list loc :=
  match b with
  | BAdd a b | BSub a b | BMul a b | BDiv a b => [a; b]
  | BNeg a | BPow a _ | BSin a | BCos a | BExp a | BLog a => [a]
  end.

Definition build `{Libm} (b : Builder) (h : Heap) : option (loc * Heap) :=
  match b with
  | BAdd a b => op_add h a b
  | BSub a b => op_sub h a b
  | BMul a b => op_mul h a b
  | BDiv a b => op_div h a b
  | BNeg a => op_neg h a
  | BPow a n => op_pow h a n
  | BSin a => op_sin h a
  | BCos a => op_cos h a
  | BExp a => op_exp h a
  | BLog a => op_log h a
  end.

(** One call of the public interface: a leaf (or constant), a builder,
    [backward] or [zero_grad]. *)
Inductive Call :=
  | CLeaf (v : float)
  | CBuild (b : Builder)
  | CBackward (root : loc)
  | CZeroGrad (root : loc).

Definition call `{Libm} (c : Call) (h : Heap) : option Heap :=
  match c with
  | CLeaf v => Some (snd (new_Var h v))
  | CBuild b => snd <$> build b h
  | CBackward root => backward h root
  | CZeroGrad root => zero_grad h root
  end.

(** A sequence of calls, run in order. *)
Definition run `{Libm} (calls : list Call) (h : Heap) : option Heap :=
  for_each calls (λ hh c, call c hh) h.

(** The sequence [backward] obtains from [topo_sort]: empty [order], empty
    [visited], started at the root. *)
Definition topo_order (h : Heap) (root : loc) : option (list loc) :=
  fst <$> topo_sort (S (size h)) h root ([], ∅).

(** The result column of the table of operations, from the specification:
    the value the node of each builder holds. *)
Definition spec_result `{Libm} (b : Builder) (h : Heap) : option float :=
  match b with
  | BAdd a b => va ← h !! a; vb ← h !! b; Some (val va + val vb)%float
  | BSub a b => va ← h !! a; vb ← h !! b; Some (val va - val vb)%float
  | BMul a b => va ← h !! a; vb ← h !! b; Some (val va * val vb)%float
  | BDiv a b => va ← h !! a; vb ← h !! b; Some (val va / val vb)%float
  | BNeg a => va ← h !! a; Some (- val va)%float
  | BPow a n => va ← h !! a; Some (c_pow (val va) n)
  | BSin a => va ← h !! a; Some (c_sin (val va))
  | BCos a => va ← h !! a; Some (c_cos (val va))
  | BExp a => va ← h !! a; Some (c_exp (val va))
  | BLog a => va ← h !! a; Some (c_log (val va))
  end.

(** ** The graph a heap holds *)

(** [edge h p t]: node [p] has a backward edge whose input is [t]; [t] is an
    operand of [p], and [p] a consumer of [t]. *)
Definition edge (h : Heap) (p t : loc) : Prop :=
  ∃ v e, h !! p = Some v ∧ e ∈ backward_edges v ∧ input e = t.

(** [reach h p q]: [q] is reachable from [p] along backward edges. *)
Definition reach (h : Heap) : relation loc := rtc (edge h).

(** Every backward edge points to a node of the heap. *)
Definition closed (h : Heap) : Prop :=
  ∀ p t, edge h p t → is_Some (h !! t).

(** The graph is a DAG: no node reaches itself along one edge or more. *)
Definition acyclic (h : Heap) : Prop :=
  ∀ p, ¬ tc (edge h) p p.

(** [before l a b]: [a] stands at a strictly smaller position of [l] than [b]. *)
Definition before (l : list loc) (a b : loc) : Prop :=
  ∃ i j, l !! i = Some a ∧ l !! j = Some b ∧ i < j.

(** Every node of the sequence stands after all of its operands. *)
Definition operands_first (h : Heap) (order : list loc) : Prop :=
  ∀ i q t, order !! i = Some q → edge h q t → ∃ j, j < i ∧ order !! j = Some t.

(** What no traversal writes: the value and the edges of a node. *)
Definition shape (v : Var) : float * list BackwardEdge :=
  (val v, backward_edges v).

(** [modifies S h h']: [h'] holds the same nodes as [h], with the same values
    and edges, and the same gradients outside [S]. *)
Definition modifies (S : loc → Prop) (h h' : Heap) : Prop :=
  ∀ p, shape <$> h' !! p = shape <$> h !! p ∧ (¬ S p → h' !! p = h !! p).

(** Every closure of the heap is defined on every memory that holds at least
    the nodes of the heap: it reads no address outside of it. *)
Definition closures_defined (h : Heap) : Prop :=
  ∀ p v e hh,
    h !! p = Some v → e ∈ backward_edges v → dom h ⊆ dom hh →
    is_Some (grad_fn e (view hh)).

(** A well-formed computation graph. *)
Definition wf (h : Heap) : Prop :=
  closed h ∧ acyclic h ∧ closures_defined h.

(** [v] with its gradient reset. *)
Definition zeroed (v : Var) : Var :=
  {| val := val v; grad := 0%float; backward_edges := backward_edges v |}.

(** The handles a call is given are nodes of the heap. *)
Definition call_ok (c : Call) (h : Heap) : Prop :=
  match c with
  | CLeaf _ => True
  | CBuild b => ∀ a, a ∈ operands b → is_Some (h !! a)
  | CBackward root | CZeroGrad root => is_Some (h !! root)
  end.

(** ** Graphs the builders cannot make *)

(** Two nodes that are operands of each other: a cycle, which only code
    outside of the builders can set up. *)
Definition cyclic_graph : Heap :=
  {[ 0 := {| val := 1%float; grad := 5%float;
             backward_edges :=
               [{| input := 1; grad_fn := λ m, peek_grad m 0 |}] |};
     1 := {| val := 2%float; grad := 7%float;
             backward_edges :=
               [{| input := 0; grad_fn := λ m, peek_grad m 1 |}] |} ]}.

(** ** The table of derivative rules *)

(** The builders of one operand. *)
Inductive Unary :=
  | UNeg
  | UPow (n : float)
  | USin
  | UCos
  | UExp
  | ULog.

Definition unary_builder (u : Unary) (a : loc) : Builder :=
  match u with
  | UNeg => BNeg a
  | UPow n => BPow a n
  | USin => BSin a
  | UCos => BCos a
  | UExp => BExp a
  | ULog => BLog a
  end.

(** The result column of the table, for an operand of value [v]. *)
Definition unary_value `{Libm} (u : Unary) (v : float) : float :=
  match u with
  | UNeg => (- v)%float
  | UPow n => c_pow v n
  | USin => c_sin v
  | UCos => c_cos v
  | UExp => c_exp v
  | ULog => c_log v
  end.

(** The partial-derivative column of the table, as the comments of the
    builders give it: [-1], [n * x^(n-1)], [cos(x)], [-sin(x)], [exp(x)],
    [1/x]. *)
Definition unary_partial `{Libm} (u : Unary) (v : float) : float :=
  match u with
  | UNeg => (-1)%float
  | UPow n => (n * c_pow v (n - 1))%float
  | USin => c_cos v
  | UCos => (- c_sin v)%float
  | UExp => c_exp v
  | ULog => (1 / v)%float
  end.

(** [x = Var(v); f = u(x); f.backward()]: the value of [f] and the gradient
    of [x]. *)
Definition unary_run `{Libm} (u : Unary) (h0 : Heap) (v : float)
  : option (float * float) :=
  let '(x, h) := new_Var h0 v in
  '(f, h) ← build (unary_builder u x) h;
  fv ← val <$> h !! f;
  h ← backward h f;
  gx ← grad <$> h !! x;
  Some (fv, gx).

(** [a = Var(va); b = Var(vb); f = op(a, b); f.backward()]: the value of [f]
    and the gradients of [a] and [b]. *)
Definition binary_run (op : Heap → loc → loc → option (loc * Heap))
    (h0 : Heap) (va vb : float) : option (float * float * float) :=
  let '(a, h) := new_Var h0 va in
  let '(b, h) := new_Var h vb in
  '(f, h) ← op h a b;
  fv ← val <$> h !! f;
  h ← backward h f;
  ga ← grad <$> h !! a;
  gb ← grad <$> h !! b;
  Some (fv, ga, gb).

(** [x = Var(v); f = op(x, x); f.backward()]: the value of [f] and the
    gradient of [x]. *)
Definition shared_run (op : Heap → loc → loc → option (loc * Heap))
    (h0 : Heap) (v : float) : option (float * float) :=
  let '(x, h) := new_Var h0 v in
  '(f, h) ← op h x x;
  fv ← val <$> h !! f;
  h ← backward h f;
  gx ← grad <$> h !! x;
  Some (fv, gx).

(** ** Chains of builders *)

(** [f = u_k(... u_1(a) ...)]: the builders of [us] applied in turn, each to
    the result of the one before. *)
Fixpoint chain_build `{Libm} (us : list Unary) (h : Heap) (a : loc)
  : option (loc * Heap) :=
  match us with
  | [] => Some (a, h)
  | u :: us' => '(r, h') ← build (unary_builder u a) h; chain_build us' h' r
  end.

(** [x = Var(v); f = u_k(... u_1(x) ...); f.backward()]: the value of [f] and
    the gradient of [x]. *)
Definition chain_run `{Libm} (us : list Unary) (h0 : Heap) (v : float)
  : option (float * float) :=
  let '(x, h) := new_Var h0 v in
  '(f, h) ← chain_build us h x;
  fv ← val <$> h !! f;
  h ← backward h f;
  gx ← grad <$> h !! x;
  Some (fv, gx).

(** The value of the chain at [v]. *)
Fixpoint chain_value `{Libm} (us : list Unary) (v : float) : float :=
  match us with
  | [] => v
  | u :: us' => chain_value us' (unary_value u v)
  end.

(** What the edge of [u] gives its operand of value [v] when the result has
    gradient [g]: [g] times the local partial, in the order the closure
    multiplies. *)
Definition unary_pullback `{Libm} (u : Unary) (v g : float) : float :=
  match u with
  | UNeg => (g * -1)%float
  | UPow n => (g * n * c_pow v (n - 1))%float
  | USin => (g * c_cos v)%float
  | UCos => (g * (- c_sin v))%float
  | UExp => (g * c_exp v)%float
  | ULog => (g / v)%float
  end.

(** The chain rule: the gradient that reaches the operand of the chain when
    its result has gradient [g].  Every node below the result starts at 0.0
    and receives one contribution. *)
Fixpoint chain_grad_from `{Libm} (us : list Unary) (v g : float) : float :=
  match us with
  | [] => g
  | u :: us' =>
      (0 + unary_pullback u v (chain_grad_from us' (unary_value u v) g))%float
  end.

(** The edge [e] of node [n] follows the rule of [u] for the operand [a]. *)
Definition edge_rule `{Libm} (u : Unary) (n a : loc) (e : BackwardEdge) : Prop :=
  input e = a
  ∧ ∀ (hh : Heap) (vn va : Var),
      hh !! n = Some vn → hh !! a = Some va →
      val vn = unary_value u (val va) →
      grad_fn e (view hh) = Some (unary_pullback u (val va) (grad vn)).

(** [chain h x v us ns top vt]: in [h] the nodes [ns], from the leaf [x] of
    value [v] up to [top] of value [vt], are the chain of [us] over [x]. *)
Inductive chain `{Libm} (h : Heap) (x : loc) (v : float)
  : list Unary → list loc → loc → float → Prop :=
  | chain_leaf :
      shape <$> h !! x = Some (v, []) → chain h x v [] [x] x v
  | chain_node us ns top vt u n e :
      chain h x v us ns top vt → n ∉ ns →
      shape <$> h !! n = Some (unary_value u vt, [e]) →
      edge_rule u n top e →
      chain h x v (us ++ [u]) (ns ++ [n]) n (unary_value u vt).

(** ** The Python wrapper *)

(** A Python object as the wrapper tells them apart: a [PyVar] with its
    [var] field ([None] while it is [nullptr]), a [float], an [int], or an
    object of any other type. *)
Inductive PyObject :=
  | PyVar (var : option loc)
  | PyFloat (d : float)
  | PyLong (n : Z)
  | PyOther.

(** The exceptions a wrapper leaves set when it returns [NULL]. *)
Inductive PyException :=
  | ArgumentError
  | ExpectedVarOrNumber
  | MemoryError.

(** What a wrapper hands back to the interpreter. *)
Inductive PyResult :=
  | Returned (o : PyObject)
  | NotImplemented
  | Raised (e : PyException).

(** The conversions the interpreter provides: [(double)PyLong_AsLong(obj)]
    for an [int], and the ["d"] format of [PyArg_ParseTuple], which fails on
    an object that has no float value. *)
Class CPython := {
  long_as_double : Z → float;
  arg_as_double : PyObject → option float
}.

(** [static bool get_var(PyObject* obj, Var*& out)]: [None] is [false]. *)
Definition get_var `{CPython} (h : Heap) (obj : PyObject)
  : option (option loc * Heap) :=
  match obj with
  | PyVar var => Some (var, h)
  | PyFloat d => let '(p, h) := new_Var h d in Some (Some p, h)
  | PyLong n => let '(p, h) := new_Var h (long_as_double n) in Some (Some p, h)
  | PyOther => None
  end.

(** [static PyObject* make_pyvar(Var* v)]; [alloc] tells whether
    [PyObject_New] finds memory. *)
Definition make_pyvar (alloc : bool) (h : Heap) (v : loc) : Heap * PyResult :=
  if alloc then (h, Returned (PyVar (Some v)))
  else (delete v h, Raised MemoryError).

(** The common body of [Var_add], [Var_sub], [Var_mul] and [Var_div]. *)
Definition Var_binary `{CPython}
    (op : Heap → loc → loc → option (loc * Heap))
    (alloc : bool) (h : Heap) (a b : PyObject) : option (Heap * PyResult) :=
  match get_var h a with
  | None => Some (h, NotImplemented)
  | Some (va, h) =>
    match get_var h b with
    | None => Some (h, NotImplemented)
    | Some (vb, h) =>
        va ← va; vb ← vb;
        '(r, h) ← op h va vb;
        Some (make_pyvar alloc h r)
    end
  end.

Definition Var_add `{CPython} := Var_binary op_add.
Definition Var_sub `{CPython} := Var_binary op_sub.
Definition Var_mul `{CPython} := Var_binary op_mul.
Definition Var_div `{CPython} := Var_binary op_div.

(** [static PyObject* Var_neg(PyObject* a)] *)
Definition Var_neg `{CPython} (alloc : bool) (h : Heap) (a : PyObject)
  : option (Heap * PyResult) :=
  match get_var h a with
  | None => Some (h, NotImplemented)
  | Some (va, h) =>
      va ← va;
      '(r, h) ← op_neg h va;
      Some (make_pyvar alloc h r)
  end.

(** The common body of [autodiff_sin], [autodiff_cos], [autodiff_exp] and
    [autodiff_log]: [args] is the argument tuple. *)
Definition autodiff_unary `{CPython}
    (op : Heap → loc → option (loc * Heap))
    (alloc : bool) (h : Heap) (args : list PyObject)
  : option (Heap * PyResult) :=
  match args with
  | [obj] =>
    match get_var h obj with
    | None => Some (h, Raised ExpectedVarOrNumber)
    | Some (v, h) =>
        v ← v;
        '(r, h) ← op h v;
        Some (make_pyvar alloc h r)
    end
  | _ => Some (h, Raised ArgumentError)
  end.

Definition autodiff_sin `{CPython} `{Libm} := autodiff_unary op_sin.
Definition autodiff_cos `{CPython} `{Libm} := autodiff_unary op_cos.
Definition autodiff_exp `{CPython} `{Libm} := autodiff_unary op_exp.
Definition autodiff_log `{CPython} `{Libm} := autodiff_unary op_log.

(** [static PyObject* autodiff_pow(PyObject* self, PyObject* args)] *)
Definition autodiff_pow `{CPython} `{Libm} (alloc : bool) (h : Heap)
    (args : list PyObject) : option (Heap * PyResult) :=
  match args with
  | [obj; n] =>
    match arg_as_double n with
    | None => Some (h, Raised ArgumentError)
    | Some n =>
      match get_var h obj with
      | None => Some (h, Raised ExpectedVarOrNumber)
      | Some (v, h) =>
          v ← v;
          '(r, h) ← op_pow h v n;
          Some (make_pyvar alloc h r)
      end
    end
  | _ => Some (h, Raised ArgumentError)
  end.

(** [static int Var_init(PyVar* self, PyObject* args, PyObject* kwargs)]:
    the new [var] field of [self], or [None] for the return value -1. *)
Definition Var_init `{CPython} (h : Heap) (args : list PyObject)
  : Heap * option PyObject :=
  match args with
  | [o] =>
    match arg_as_double o with
    | Some d => let '(p, h) := new_Var h d in (h, Some (PyVar (Some p)))
    | None => (h, None)
    end
  | _ => (h, None)
  end.

(** [static void Var_dealloc(PyVar* self)]: [delete self->var]. *)
Definition Var_dealloc (h : Heap) (self : PyObject) : Heap :=
  match self with
  | PyVar (Some p) => delete p h
  | _ => h
  end.

(** [static PyObject* Var_val(PyVar* self, void* closure)] and [Var_grad]. *)
Definition Var_val (h : Heap) (var : option loc) : option float :=
  p ← var; v ← h !! p; Some (val v).

Definition Var_grad (h : Heap) (var : option loc) : option float :=
  p ← var; v ← h !! p; Some (grad v).

(** [static PyObject* Var_backward(PyVar* self, PyObject* args)] and
    [Var_zero_grad]: the heap they leave ([None] is returned to Python). *)
Definition Var_backward (h : Heap) (var : option loc) : option Heap :=
  p ← var; backward h p.

Definition Var_zero_grad (h : Heap) (var : option loc) : option Heap :=
  p ← var; zero_grad h p.

(** A stand-in for the interpreter's conversions where a closed instance is
    needed: small integers only. *)
Definition sample_cpython : CPython :=
  {| long_as_double n :=
       if decide (n = 2%Z) then 2%float
       else if decide (n = 3%Z) then 3%float else 0%float;
     arg_as_double o :=
       match o with PyFloat d => Some d | _ => None end |}.

(** [x = Var(v); f = x * c; f.backward()] with [c] a Python number: the
    value of [f] and the gradient of [x]. *)
Definition scaled_run `{CPython} (h0 : Heap) (v : float) (c : PyObject)
  : option (float * float) :=
  match Var_init h0 [PyFloat v] with
  | (h, Some (PyVar x)) =>
    '(h, res) ← Var_mul true h (PyVar x) c;
    match res with
    | Returned (PyVar f) =>
        fv ← Var_val h f;
        h ← Var_backward h f;
        gx ← Var_grad h x;
        Some (fv, gx)
    | _ => None
    end
  | _ => None
  end.

(** The operators and module functions of the wrapper, as a type of calls. *)
Inductive PyCall :=
  | PyAdd (a b : PyObject)
  | PySub (a b : PyObject)
  | PyMul (a b : PyObject)
  | PyDiv (a b : PyObject)
  | PyNeg (a : PyObject)
  | PySin (args : list PyObject)
  | PyCos (args : list PyObject)
  | PyExp (args : list PyObject)
  | PyLog (args : list PyObject)
  | PyPow (args : list PyObject).

Definition py_call `{CPython} `{Libm} (alloc : bool) (h : Heap) (c : PyCall)
  : option (Heap * PyResult) :=
  match c with
  | PyAdd a b => Var_add alloc h a b
  | PySub a b => Var_sub alloc h a b
  | PyMul a b => Var_mul alloc h a b
  | PyDiv a b => Var_div alloc h a b
  | PyNeg a => Var_neg alloc h a
  | PySin args => autodiff_sin alloc h args
  | PyCos args => autodiff_cos alloc h args
  | PyExp args => autodiff_exp alloc h args
  | PyLog args => autodiff_log alloc h args
  | PyPow args => autodiff_pow alloc h args
  end.

(** The objects a call may turn into a node: the operands of an operator,
    the first argument of a module function. *)
Definition py_operands (c : PyCall) : list PyObject :=
  match c with
  | PyAdd a b | PySub a b | PyMul a b | PyDiv a b => [a; b]
  | PyNeg a => [a]
  | PySin args | PyCos args | PyExp args | PyLog args | PyPow args =>
      take 1 args
  end.

(** A handle is live when its [var] field is the address of a node. *)
Definition live (h : Heap) (o : PyObject) : Prop :=
  match o with
  | PyVar var => ∃ p, var = Some p ∧ is_Some (h !! p)
  | _ => True
  end.

(** A Python number: a [float] or an [int]. *)
Definition is_number (o : PyObject) : Prop :=
  match o with
  | PyFloat _ | PyLong _ => True
  | _ => False
  end.

(** The [double] a Python number is read as in [get_var]. *)
Definition number_value `{CPython} (o : PyObject) : option float :=
  match o with
  | PyFloat d => Some d
  | PyLong n => Some (long_as_double n)
  | _ => None
  end.

(** The call is one of the four binary operators, with these operands. *)
Definition binary_operands (c : PyCall) : option (PyObject * PyObject) :=
  match c with
  | PyAdd a b | PySub a b | PyMul a b | PyDiv a b => Some (a, b)
  | _ => None
  end.

(** ** Termination of the traversal *)

Section topo_sort_terminates.
Variable h : Heap.
Hypothesis Hclosed : closed h.

Lemma unvisited_shrinks (this : loc) (visited vis : gset loc) (fuel : nat) :
  is_Some (h !! this) → this ∉ visited → {[this]} ∪ visited ⊆ vis →
  size (dom h ∖ visited) < S fuel → size (dom h ∖ vis) < fuel.
Proof.
  intros Hthis Hnv Hsub Hlt.
  assert (dom h ∖ vis ⊂ dom h ∖ visited) as Hstrict.
  { apply elem_of_dom in Hthis. set_solver. }
  apply subset_size in Hstrict. lia.
Qed.

Lemma topo_sort_terminates_from (fuel : nat) :
  ∀ this order visited,
    is_Some (h !! this) → size (dom h ∖ visited) < fuel →
    ∃ order' visited',
      topo_sort fuel h this (order, visited) = Some (order', visited')
      ∧ visited ⊆ visited'.
Proof.
  induction fuel as [|fuel IH]; intros this order visited Hthis Hfuel; [lia|].
  simpl. case_decide as Hvis; [eauto|].
  destruct Hthis as [v Hv]. rewrite Hv. simpl.
  assert (∀ es o vis,
    (∀ e, e ∈ es → e ∈ backward_edges v) → {[this]} ∪ visited ⊆ vis →
    ∃ o' vis',
      for_each es (λ st' e, topo_sort fuel h (input e) st') (o, vis)
        = Some (o', vis') ∧ vis ⊆ vis') as Hloop.
  { induction es as [|e es IHes]; intros o vis Hes Hsub; [simpl; eauto|].
    simpl.
    destruct (IH (input e) o vis) as (o1 & vis1 & -> & Hsub1).
    - apply (Hclosed this). exists v, e. split_and!; [done| |done].
      apply Hes. left.
    - eapply unvisited_shrinks; eauto.
    - simpl. destruct (IHes o1 vis1) as (o2 & vis2 & -> & Hsub2).
      + intros e' He'. apply Hes. by right.
      + set_solver.
      + exists o2, vis2. split; [done|set_solver]. }
  destruct (Hloop (backward_edges v) order ({[this]} ∪ visited))
    as (o' & vis' & -> & Hsub); [done|done|].
  simpl. exists (o' ++ [this]), vis'. split; [done|set_solver].
Qed.

End topo_sort_terminates.

(** ** The order the traversal produces *)

Lemma before_reverse (l : list loc) (a b : loc) :
  before l a b → before (reverse l) b a.
Proof.
  intros (i & j & Hi & Hj & Hlt).
  pose proof (lookup_lt_Some _ _ _ Hi). pose proof (lookup_lt_Some _ _ _ Hj).
  exists (length l - S j), (length l - S i). split_and!.
  - rewrite reverse_lookup by lia. rewrite <- Hj. f_equal. lia.
  - rewrite reverse_lookup by lia. rewrite <- Hi. f_equal. lia.
  - lia.
Qed.

Lemma operands_first_closed (h : Heap) (order : list loc) (q t : loc) :
  operands_first h order → q ∈ order → reach h q t → t ∈ order.
Proof.
  intros Hof Hq Hreach. induction Hreach as [|x y z Hxy _ IH]; [done|].
  apply IH. apply list_elem_of_lookup in Hq as [i Hi].
  destruct (Hof i x y Hi Hxy) as (j & _ & Hj).
  apply list_elem_of_lookup. eauto.
Qed.

Lemma operands_first_snoc (h : Heap) (order : list loc) (p : loc) :
  operands_first h order → (∀ t, edge h p t → t ∈ order) →
  operands_first h (order ++ [p]).
Proof.
  intros Hof Hp i q t Hi Hqt.
  destruct (decide (i < length order)) as [Hlt|Hge].
  - rewrite lookup_app_l in Hi by done.
    destruct (Hof i q t Hi Hqt) as (j & Hj & Hjt).
    exists j. split; [done|]. by rewrite lookup_app_l by lia.
  - pose proof (lookup_lt_Some _ _ _ Hi) as Hlen.
    rewrite length_app in Hlen. simpl in Hlen.
    assert (i = length order) as -> by lia.
    rewrite lookup_app_r, Nat.sub_diag in Hi by lia. simplify_eq/=.
    apply Hp, list_elem_of_lookup in Hqt as [j Hj].
    exists j. split; [by eapply lookup_lt_Some|].
    rewrite lookup_app_l; [done|by eapply lookup_lt_Some].
Qed.

Section topo_sort_spec.
Variable h : Heap.
Hypothesis Hacyclic : acyclic h.

Lemma no_back_edge (p c : loc) : edge h p c → ¬ reach h c p.
Proof.
  intros Hpc Hcp. apply (Hacyclic p).
  eapply tc_rtc_r; [by apply tc_once|done].
Qed.

Lemma topo_sort_spec (fuel : nat) :
  ∀ this order visited order' visited',
    topo_sort fuel h this (order, visited) = Some (order', visited') →
    (∀ q, q ∈ order → q ∈ visited) →
    operands_first h order → NoDup order →
    (∀ g, g ∈ visited → g ∉ order → ¬ reach h this g) →
    ∃ new,
      order' = order ++ new ∧ visited' = visited ∪ list_to_set new
      ∧ (∀ q, q ∈ new ↔ reach h this q ∧ q ∉ order)
      ∧ operands_first h order' ∧ NoDup order'.
Proof.
  induction fuel as [|fuel IH];
    intros this order visited order' visited' Hrun Hsub Hof Hnd Hgrey;
    [done|].
  simpl in Hrun. case_decide as Hvis.
  { injection Hrun as <- <-. exists []. rewrite app_nil_r.
    assert (this ∈ order) as Hin.
    { destruct (decide (this ∈ order)); [done|].
      exfalso. by apply (Hgrey this Hvis). }
    split_and!; [done|set_solver| |done|done].
    intros q. split; [by intros ?%elem_of_nil|].
    intros [Hq Hnq]. exfalso. apply Hnq.
    by eapply operands_first_closed. }
  destruct (h !! this) as [v|] eqn:Hv; simpl in Hrun; [|done].
  destruct (for_each _ _ _) as [[o1 vis1]|] eqn:Hloop; simplify_eq/=.
  assert (∀ es o vis o' vis',
    for_each es (λ st' e, topo_sort fuel h (input e) st') (o, vis)
      = Some (o', vis') →
    (∀ e, e ∈ es → e ∈ backward_edges v) →
    (∀ q, q ∈ o → q ∈ vis) → operands_first h o → NoDup o →
    (∀ g c, g ∈ vis → g ∉ o → edge h this c → ¬ reach h c g) →
    ∃ new,
      o' = o ++ new ∧ vis' = vis ∪ list_to_set new
      ∧ (∀ q, q ∈ new ↔ (∃ e, e ∈ es ∧ reach h (input e) q) ∧ q ∉ o)
      ∧ operands_first h o' ∧ NoDup o') as Hloop_spec.
  { induction es as [|e es IHes];
      intros o vis o' vis' Hes Hin Hsubo Hofo Hndo Hgreyo.
    - simpl in Hes. simplify_eq. exists []. rewrite app_nil_r.
      split_and!; [done|set_solver| |done|done].
      intros q. split; [by intros ?%elem_of_nil|].
      by intros [(e & ?%elem_of_nil & _) _].
    - simpl in Hes.
      destruct (topo_sort fuel h (input e) (o, vis)) as [[o2 vis2]|] eqn:He;
        simpl in Hes; [|done].
      assert (edge h this (input e)) as Hedge.
      { exists v, e. split_and!; [done| |done]. apply Hin. left. }
      destruct (IH _ _ _ _ _ He Hsubo Hofo Hndo)
        as (new1 & -> & -> & Hnew1 & Hof1 & Hnd1).
      { intros g Hg Hgo. by eapply Hgreyo. }
      destruct (IHes _ _ _ _ Hes) as (new2 & -> & -> & Hnew2 & Hof2 & Hnd2);
        [ intros e' He'; apply Hin; by right
        | intros q Hq; apply elem_of_app in Hq as [Hq|Hq]; set_solver
        | done | done
        | intros g c Hg Hgo; apply (Hgreyo g c); set_solver | ].
      exists (new1 ++ new2). rewrite !(assoc_L (++)).
      split_and!; [done|set_solver| |done|done].
      intros q. rewrite elem_of_app, Hnew1, Hnew2. split.
      + intros [[Hq Hnq]|[(e' & He' & Hq) Hnq]].
        * split; [|done]. exists e. split; [left|done].
        * split; [|set_solver]. exists e'. split; [by right|done].
      + intros [(e' & He' & Hq) Hnq].
        apply elem_of_cons in He' as [->|He']; [by left|].
        destruct (decide (q ∈ new1)) as [Hq1|Hq1].
        * left. by apply Hnew1.
        * right. split; [by exists e'|]. set_solver. }
  destruct (Hloop_spec _ _ _ _ _ Hloop) as (new & -> & -> & Hnew & Hof' & Hnd');
    [ done | set_solver | done | done | | ].
  { intros g c Hg Hgo Hc Hcg.
    apply elem_of_union in Hg as [->%elem_of_singleton|Hg].
    - by apply (no_back_edge this c).
    - apply (Hgrey g Hg Hgo). by eapply rtc_l. }
  assert (this ∉ order) as Hthis by (intros ?; by apply Hvis, Hsub).
  exists (new ++ [this]). rewrite !(assoc_L (++)).
  split_and!; [done|set_solver| | |].
  - intros q. rewrite elem_of_app, Hnew, list_elem_of_singleton. split.
    + intros [[(e & He & Hq) Hnq]| ->]; [|by split].
      split; [|done]. eapply rtc_l; [|done]. by exists v, e.
    + intros [Hq Hnq]. apply rtc_inv in Hq as [->|(c & (v' & e & ? & ? & ?) & Hq)];
        [by right|]. simplify_eq. left. split; [by exists e|done].
  - apply operands_first_snoc; [done|].
    intros t (v' & e & ? & He & <-). simplify_eq.
    destruct (decide (input e ∈ order)) as [?|Hno]; [set_solver|].
    apply elem_of_app. right. apply Hnew. split; [by exists e|done].
  - apply NoDup_app. split_and!; [done| |apply NoDup_singleton].
    intros q Hq ->%list_elem_of_singleton.
    apply elem_of_app in Hq as [?|Hq]; [done|].
    apply Hnew in Hq as [(e & He & Hq) _].
    apply (no_back_edge this (input e)); [by exists v, e|done].
Qed.

End topo_sort_spec.

(** ** The builders *)

Lemma new_Var_fresh (h : Heap) (v : float) : h !! (new_Var h v).1 = None.
Proof. apply not_elem_of_dom, is_fresh. Qed.

Lemma add_edge_insert (h : Heap) (r inp : loc) (fn : View → option float) (v : Var) :
  add_edge (<[r := v]> h) r inp fn
  = Some (<[r := {| val := val v; grad := grad v;
                    backward_edges := backward_edges v
                                      ++ [{| input := inp; grad_fn := fn |}] |}]> h).
Proof. unfold add_edge. rewrite lookup_insert_eq. simpl. by rewrite insert_insert_eq. Qed.

Section builders.
Context `{Libm}.

Lemma build_spec (b : Builder) (h : Heap) (r : loc) (h' : Heap) :
  build b h = Some (r, h') →
  h !! r = None ∧ (∀ a, a ∈ operands b → is_Some (h !! a)) ∧
  ∃ v, h' = <[r := v]> h ∧ grad v = 0%float
       ∧ input <$> backward_edges v = operands b
       ∧ (∀ e hh, e ∈ backward_edges v → is_Some (hh !! r) →
            (∀ a, a ∈ operands b → is_Some (hh !! a)) →
            is_Some (grad_fn e (view hh))).
Proof.
  intros Hb.
  destruct b; simpl in Hb;
    unfold op_add, op_sub, op_mul, op_div, op_neg, op_pow, op_sin, op_cos,
      op_exp, op_log, new_Var in Hb.
  all: repeat match type of Hb with
       | context [@lookup _ _ (gmap _ _) _ ?a ?m] =>
           destruct (@lookup _ _ (gmap _ _) _ a m) eqn:?; simpl in Hb; [|done]
       end.
  all: repeat (rewrite add_edge_insert in Hb; simpl in Hb).
  all: injection Hb as <- <-.
  all: (split; [apply not_elem_of_dom, is_fresh|]).
  all: (split; [intros x Hx; simpl in Hx;
                repeat (apply elem_of_cons in Hx as [->|Hx]); eauto;
                by apply elem_of_nil in Hx|]).
  all: eexists; split_and!; [reflexivity|reflexivity|reflexivity|].
  all: intros e hh He [vr Hr] Hops; simpl in He.
  all: repeat match goal with
       | Ha : ?m !! ?a = Some _ |- _ =>
           tryif constr_eq m hh then fail
           else (assert (is_Some (hh !! a)) as [? ?]
                   by (apply Hops; simpl; set_solver); clear Ha)
       end.
  all: repeat (apply elem_of_cons in He as [->|He]);
    try (by apply elem_of_nil in He); simpl.
  all: repeat match goal with
       | Hx : ?m !! _ = Some _ |- _ => rewrite Hx; clear Hx
       end; simpl; eauto.
Qed.

Lemma build_total (b : Builder) (h : Heap) :
  (∀ a, a ∈ operands b → is_Some (h !! a)) → is_Some (build b h).
Proof.
  intros Hops.
  destruct b; simpl in *;
    unfold op_add, op_sub, op_mul, op_div, op_neg, op_pow, op_sin, op_cos,
      op_exp, op_log, new_Var.
  all: repeat match goal with
       | |- context [@lookup _ _ (gmap _ _) _ ?a ?m] =>
           let Hx := fresh in
           assert (is_Some (m !! a)) as [? Hx] by (apply Hops; set_solver);
           rewrite Hx; clear Hx; simpl
       end.
  all: repeat (rewrite add_edge_insert; simpl); eauto.
Qed.

End builders.

(** ** Graphs made by the builders are well formed *)

Lemma edge_insert_fresh (h : Heap) (r : loc) (v : Var) (p t : loc) :
  h !! r = None →
  edge (<[r := v]> h) p t
  ↔ (p = r ∧ t ∈ input <$> backward_edges v) ∨ edge h p t.
Proof.
  intros Hr. unfold edge. split.
  - intros (v' & e & Hp & He & <-).
    destruct (decide (p = r)) as [->|Hne].
    + rewrite lookup_insert_eq in Hp. simplify_eq. left. split; [done|].
      apply list_elem_of_fmap. eauto.
    + rewrite lookup_insert_ne in Hp by done. right. eauto.
  - intros [[-> Ht]|(v' & e & Hp & He & <-)].
    + apply list_elem_of_fmap in Ht as (e & -> & He).
      exists v, e. by rewrite lookup_insert_eq.
    + exists v', e. rewrite lookup_insert_ne; [done|]. intros ->. congruence.
Qed.

Lemma tc_target {A : Type} (R : relation A) (x z : A) :
  tc R x z → ∃ y, R y z.
Proof. induction 1; eauto. Qed.

Lemma wf_empty : wf ∅.
Proof.
  split_and!.
  - intros p t (v & e & Hp & _). by rewrite lookup_empty in Hp.
  - intros p Hp.
    inversion Hp as [? ? (v & e & Hv & _)|? ? ? (v & e & Hv & _)];
      by rewrite lookup_empty in Hv.
  - intros p v e hh Hp. by rewrite lookup_empty in Hp.
Qed.

Lemma wf_insert_fresh (h : Heap) (r : loc) (v : Var) :
  wf h → h !! r = None →
  (∀ t, t ∈ input <$> backward_edges v → is_Some (h !! t)) →
  (∀ e hh, e ∈ backward_edges v → dom (<[r := v]> h) ⊆ dom hh →
     is_Some (grad_fn e (view hh))) →
  wf (<[r := v]> h).
Proof.
  intros (Hcl & Hac & Hfn) Hr Hin Hnew.
  assert (∀ p t, edge (<[r := v]> h) p t → is_Some (h !! t)) as Htarget.
  { intros p t Hpt. apply edge_insert_fresh in Hpt as [[-> Ht]|Hpt]; [| |done].
    - by apply Hin.
    - by eapply Hcl. }
  split_and!.
  - intros p t Hpt. apply Htarget in Hpt as [vt Hvt].
    exists vt. rewrite lookup_insert_ne; [done|]. intros ->. congruence.
  - assert (∀ p q, tc (edge (<[r := v]> h)) p q → p ≠ r → tc (edge h) p q)
      as Hold.
    { intros p q Hpq. induction Hpq as [p q Hpq|p y q Hpy _ IH]; intros Hne.
      - apply tc_once.
        by apply edge_insert_fresh in Hpq as [[-> _]|Hpq].
      - eapply tc_l.
        + apply edge_insert_fresh in Hpy as [[-> _]|Hpy]; [done| |done].
          exact Hpy.
        + apply IH. intros ->. apply Htarget in Hpy as [? ?]. congruence. }
    intros p Hp. apply (Hac p), Hold; [done|].
    intros ->. 
    apply tc_target in Hp as [y Hy].
    apply Htarget in Hy as [? ?]. congruence.
  - intros p v' e hh Hp He Hdom.
    destruct (decide (p = r)) as [->|Hne].
    + rewrite lookup_insert_eq in Hp. simplify_eq. by apply Hnew.
    + rewrite lookup_insert_ne in Hp by done.
      apply (Hfn p v' e hh Hp He). rewrite dom_insert_L in Hdom. set_solver.
Qed.

Section built.
Context `{Libm}.

Lemma wf_new_Var (h : Heap) (v : float) : wf h → wf (new_Var h v).2.
Proof.
  intros Hwf. unfold new_Var. simpl.
  apply wf_insert_fresh; [done|apply (new_Var_fresh h v)| |].
  - intros t Ht. by apply elem_of_nil in Ht.
  - intros e hh He. by apply elem_of_nil in He.
Qed.

Lemma wf_build (b : Builder) (h : Heap) (r : loc) (h' : Heap) :
  wf h → (∀ a, a ∈ operands b → is_Some (h !! a)) →
  build b h = Some (r, h') → wf h'.
Proof.
  intros Hwf Hops (Hr & _ & v & -> & _ & Hin & Hfn)%build_spec.
  apply wf_insert_fresh; [done|done| |].
  - intros t Ht. apply Hops. by rewrite <- Hin.
  - intros e hh He Hdom. rewrite dom_insert_L in Hdom. apply Hfn; [done| |].
    + apply elem_of_dom. set_solver.
    + intros a [? ?]%Hops. apply elem_of_dom.
      assert (a ∈ dom h) by (by apply elem_of_dom). set_solver.
Qed.

End built.

(** ** Loops *)

Lemma for_each_total {A S : Type} (I : S → Prop) (l : list A)
    (body : S → A → option S) (s : S) :
  I s →
  (∀ x t, x ∈ l → I t → ∃ t', body t x = Some t' ∧ I t') →
  ∃ s', for_each l body s = Some s' ∧ I s'.
Proof.
  revert s. induction l as [|x l IH]; intros s Hs Hbody; simpl; [eauto|].
  destruct (Hbody x s) as (t & -> & Ht); [left|done|]. simpl.
  apply IH; [done|]. intros y t' Hy. apply Hbody. by right.
Qed.

Lemma for_each_invariant {A S : Type} (I : S → Prop) (l : list A)
    (body : S → A → option S) (s s' : S) :
  I s →
  (∀ x t t', x ∈ l → I t → body t x = Some t' → I t') →
  for_each l body s = Some s' → I s'.
Proof.
  revert s. induction l as [|x l IH]; intros s Hs Hbody Hrun; simpl in Hrun.
  - by simplify_eq.
  - destruct (body s x) as [t|] eqn:Ht; simpl in Hrun; [|done].
    apply (IH t); [|by intros y ? ? ?; apply Hbody; right|done].
    eapply Hbody; [left|done|done].
Qed.

(** ** Writes to gradients only *)

Lemma modifies_refl (S : loc → Prop) (h : Heap) : modifies S h h.
Proof. by intros p. Qed.

Lemma modifies_trans (S : loc → Prop) (h1 h2 h3 : Heap) :
  modifies S h1 h2 → modifies S h2 h3 → modifies S h1 h3.
Proof.
  intros H12 H23 p. destruct (H12 p) as [Hs12 Hf12], (H23 p) as [Hs23 Hf23].
  split; [congruence|]. intros Hp. rewrite Hf23, Hf12; done.
Qed.

Lemma modifies_grad (S : loc → Prop) (h : Heap) (p : loc) (v : Var) (g : float) :
  h !! p = Some v → S p →
  modifies S h (<[p := {| val := val v; grad := g;
                          backward_edges := backward_edges v |}]> h).
Proof.
  intros Hp HS q. destruct (decide (p = q)) as [<-|Hne].
  - rewrite lookup_insert_eq, Hp. by split.
  - by rewrite lookup_insert_ne.
Qed.

Lemma modifies_lookup (S : loc → Prop) (h h' : Heap) (p : loc) (v : Var) :
  modifies S h h' → h !! p = Some v →
  ∃ v', h' !! p = Some v' ∧ val v' = val v
        ∧ backward_edges v' = backward_edges v.
Proof.
  intros Hm Hp. destruct (Hm p) as [Hs _]. rewrite Hp in Hs.
  destruct (h' !! p) as [v'|]; simplify_eq/=. unfold shape in Hs.
  exists v'. by simplify_eq.
Qed.

Lemma modifies_sym_shape (S : loc → Prop) (h h' : Heap) :
  modifies S h h' → modifies (λ _, True) h' h.
Proof. intros Hm p. destruct (Hm p) as [Hs _]. split; [done|tauto]. Qed.

Lemma modifies_dom (S : loc → Prop) (h h' : Heap) :
  modifies S h h' → dom h' = dom h.
Proof.
  intros Hm. apply set_eq. intros p. rewrite !elem_of_dom.
  destruct (Hm p) as [Hs _]. rewrite <- !(fmap_is_Some shape). by rewrite Hs.
Qed.

Lemma modifies_edge (S : loc → Prop) (h h' : Heap) (p t : loc) :
  modifies S h h' → edge h' p t ↔ edge h p t.
Proof.
  intros Hm.
  assert (∀ S h h', modifies S h h' → edge h p t → edge h' p t) as Hone.
  { clear. intros S h h' Hm (v & e & Hp & He & <-).
    destruct (modifies_lookup _ _ _ _ _ Hm Hp) as (v' & Hp' & _ & Hedges).
    exists v', e. by rewrite Hedges. }
  split; [|by apply (Hone S)].
  apply (Hone (λ _, True)). by eapply modifies_sym_shape.
Qed.

Lemma modifies_reach (S : loc → Prop) (h h' : Heap) (p q : loc) :
  modifies S h h' → reach h' p q ↔ reach h p q.
Proof.
  intros Hm. split; intros Hr; induction Hr as [|x y z Hxy _ IH]; try done.
  - eapply rtc_l; [|done]. by apply (modifies_edge S h h' x y Hm).
  - eapply rtc_l; [|done]. by apply (modifies_edge S h h' x y Hm).
Qed.

Lemma modifies_closed (S : loc → Prop) (h h' : Heap) :
  modifies S h h' → closed h → closed h'.
Proof.
  intros Hm Hcl p t Hpt%(modifies_edge S h h' p t Hm).
  apply elem_of_dom. rewrite (modifies_dom _ _ _ Hm). apply elem_of_dom.
  by eapply Hcl.
Qed.

Lemma modifies_size (S : loc → Prop) (h h' : Heap) :
  modifies S h h' → size h' = size h.
Proof.
  intros Hm. rewrite <- !size_dom. by rewrite (modifies_dom _ _ _ Hm).
Qed.

Lemma reach_in_heap (h : Heap) (p q : loc) :
  closed h → is_Some (h !! p) → reach h p q → is_Some (h !! q).
Proof.
  intros Hcl Hp Hr. induction Hr as [|x y z Hxy _ IH]; [done|].
  apply IH. by eapply Hcl.
Qed.

(** ** The backward pass *)

Section backward_spec.
Variable h : Heap.
Hypothesis Hclosed : closed h.
Hypothesis Hfn : closures_defined h.

Lemma propagate_spec (S : loc → Prop) (node : loc) (hh : Heap) :
  is_Some (h !! node) → (∀ t, edge h node t → S t) → modifies S h hh →
  ∃ hh', propagate hh node = Some hh' ∧ modifies S h hh'.
Proof.
  intros [v Hv] HS Hm. unfold propagate.
  destruct (modifies_lookup _ _ _ _ _ Hm Hv) as (v' & Hv' & _ & Hedges).
  rewrite Hv'. simpl. rewrite Hedges.
  apply (for_each_total (modifies S h)); [done|].
  intros e t He Ht.
  destruct (Hfn node v e t Hv He) as [g ->].
  { by rewrite (modifies_dom _ _ _ Ht). }
  simpl.
  assert (edge h node (input e)) as Hedge by (by exists v, e).
  destruct (Hclosed _ _ Hedge) as [vt Hvt].
  destruct (modifies_lookup _ _ _ _ _ Ht Hvt) as (vt' & Hvt' & _ & _).
  rewrite Hvt'. simpl. eexists. split; [done|].
  eapply modifies_trans; [done|]. apply modifies_grad; [done|by apply HS].
Qed.

Lemma backward_spec (root : loc) :
  acyclic h → is_Some (h !! root) →
  ∃ h1, backward h root = Some h1 ∧ modifies (reach h root) h h1.
Proof.
  intros Hacyclic Hroot. unfold backward.
  destruct (topo_sort_terminates_from h Hclosed (S (size h)) root [] ∅)
    as (order & visited & Hsort & _); [done| |].
  { rewrite difference_empty_L, size_dom. lia. }
  rewrite Hsort. simpl.
  destruct (topo_sort_spec h Hacyclic _ _ _ _ _ _ Hsort)
    as (new & -> & _ & Hnew & _).
  { by intros q ?%elem_of_nil. }
  { by intros i q t ?. }
  { apply NoDup_nil_2. }
  { intros g ?. set_solver. }
  destruct Hroot as [v Hv]. unfold set_grad. rewrite Hv. simpl.
  apply (for_each_total (modifies (reach h root) h)).
  - by apply modifies_grad.
  - intros node t Hnode Ht. simpl in Hnode. rewrite elem_of_reverse in Hnode.
    apply Hnew in Hnode as [Hnode _].
    apply propagate_spec; [|intros c Hc|done].
    + by eapply reach_in_heap.
    + eapply rtc_r; done.
Qed.

End backward_spec.

(** ** The reset pass *)

Lemma zeroed_shape (v : Var) : shape (zeroed v) = shape v.
Proof. done. Qed.

Section zero_grad_spec.
Variable h0 : Heap.
Hypothesis Hclosed : closed h0.

Lemma zero_grad_helper_spec (fuel : nat) :
  ∀ this h visited,
    modifies (λ _, True) h0 h → is_Some (h0 !! this) →
    size (dom h0 ∖ visited) < fuel →
    ∃ h' visited',
      zero_grad_helper fuel this (h, visited) = Some (h', visited')
      ∧ visited ⊆ visited' ∧ this ∈ visited'
      ∧ (∀ q, h' !! q = if decide (q ∈ visited' ∖ visited)
                        then zeroed <$> h !! q else h !! q)
      ∧ (∀ q, q ∈ visited' → q ∉ visited →
           reach h0 this q ∧ ∀ t, edge h0 q t → t ∈ visited').
Proof.
  induction fuel as [|fuel IH]; intros this h visited Hm Hthis Hfuel; [lia|].
  simpl. case_decide as Hvis.
  { exists h, visited. split_and!; [done|done|done| |done].
    intros q. case_decide; [set_solver|done]. }
  destruct Hthis as [v0 Hv0].
  destruct (modifies_lookup _ _ _ _ _ Hm Hv0) as (v & Hv & _ & Hedges).
  unfold set_grad. rewrite Hv. simpl. rewrite lookup_insert_eq. simpl.
  set (h1 := <[this := _]> h). rewrite Hedges.
  assert (∀ q, h1 !! q = if decide (q = this) then Some (zeroed v) else h !! q)
    as Hh1.
  { intros q. unfold h1. case_decide as Hq.
    - subst q. by rewrite lookup_insert_eq.
    - by rewrite lookup_insert_ne. }
  assert (modifies (λ _, True) h0 h1) as Hm1.
  { apply (modifies_trans _ h0 h h1 Hm). unfold h1.
    by apply (modifies_grad _ h this v). }
  clearbody h1.
  assert (∀ es hh vis,
    (∀ e, e ∈ es → e ∈ backward_edges v0) →
    modifies (λ _, True) h0 hh → {[this]} ∪ visited ⊆ vis →
    ∃ hh' vis',
      for_each es (λ st' e, zero_grad_helper fuel (input e) st') (hh, vis)
        = Some (hh', vis')
      ∧ vis ⊆ vis' ∧ (∀ e, e ∈ es → input e ∈ vis')
      ∧ (∀ q, hh' !! q = if decide (q ∈ vis' ∖ vis)
                         then zeroed <$> hh !! q else hh !! q)
      ∧ (∀ q, q ∈ vis' → q ∉ vis →
           (∃ e, e ∈ es ∧ reach h0 (input e) q)
           ∧ ∀ t, edge h0 q t → t ∈ vis')) as Hloop.
  { induction es as [|e es IHes]; intros hh vis Hes Hmh Hsub; simpl.
    - exists hh, vis. split_and!; [done|done| | |done].
      + by intros e ?%elem_of_nil.
      + intros q. case_decide; [set_solver|done].
    - assert (edge h0 this (input e)) as Hedge.
      { exists v0, e. split_and!; [done| |done]. apply Hes. left. }
      destruct (IH (input e) hh vis Hmh)
        as (hh1 & vis1 & -> & Hsub1 & Hin1 & Hlook1 & Hnew1).
      { by eapply Hclosed. }
      { eapply unvisited_shrinks; eauto. }
      simpl.
      assert (modifies (λ _, True) h0 hh1) as Hmh1.
      { intros q. split; [|tauto]. rewrite Hlook1.
        destruct (Hmh q) as [<- _]. case_decide; [|done].
        by destruct (hh !! q). }
      destruct (IHes hh1 vis1) as (hh2 & vis2 & -> & Hsub2 & Hin2 & Hlook2 & Hnew2);
        [by intros e' ?; apply Hes; right|done|set_solver|].
      exists hh2, vis2. split_and!; [done|set_solver| | |].
      + intros e' [->|He']%elem_of_cons; [set_solver|by apply Hin2].
      + intros q. rewrite Hlook2, Hlook1.
        repeat case_decide; try done; set_solver.
      + intros q Hq Hnq. destruct (decide (q ∈ vis1)) as [Hq1|Hq1].
        * destruct (Hnew1 q Hq1 Hnq) as [Hr Hch]. split.
          -- exists e. split; [left|done].
          -- intros t Ht. apply Hsub2. by apply Hch.
        * destruct (Hnew2 q Hq Hq1) as [(e' & He' & Hr) Hch]. split; [|done].
          exists e'. split; [by right|done]. }
  destruct (Hloop (backward_edges v0) h1 ({[this]} ∪ visited))
    as (h' & visited' & -> & Hsub & Hin & Hlook & Hnew); [done|done|done|].
  exists h', visited'. split_and!; [done|set_solver|set_solver| |].
  - intros q. rewrite Hlook, Hh1.
    destruct (decide (q = this)) as [->|Hq].
    + rewrite Hv. simpl.
      repeat case_decide; try done; set_solver.
    + repeat case_decide; try done; set_solver.
  - intros q Hq Hnq. destruct (decide (q = this)) as [->|Hne].
    + split; [done|]. intros t (v' & e & ? & He & <-). simplify_eq.
      by apply Hin.
    + destruct (Hnew q Hq) as [(e & He & Hr) Hch]; [set_solver|].
      split; [|done]. eapply rtc_l; [|done]. by exists v0, e.
Qed.

End zero_grad_spec.

Lemma zero_grad_spec (h : Heap) (root : loc) :
  closed h → is_Some (h !! root) →
  ∃ h2 (visited : gset loc),
    zero_grad h root = Some h2
    ∧ (∀ q, q ∈ visited ↔ reach h root q)
    ∧ (∀ q, h2 !! q = if decide (q ∈ visited)
                      then zeroed <$> h !! q else h !! q).
Proof.
  intros Hclosed Hroot. unfold zero_grad.
  destruct (zero_grad_helper_spec h Hclosed (S (size h)) root h ∅)
    as (h2 & visited & -> & _ & Hin & Hlook & Hnew);
    [apply modifies_refl|done| |].
  { rewrite difference_empty_L, size_dom. lia. }
  exists h2, visited. split_and!; [done| |].
  - intros q. split; [intros Hq; by apply Hnew|].
    assert (∀ x y, reach h x y → x ∈ visited → y ∈ visited) as Hcl.
    { intros x y Hxy. induction Hxy as [|x y z Hxy _ IH]; [done|].
      intros Hx. apply IH.
      destruct (Hnew x Hx) as [_ Hch]; [set_solver|]. by apply Hch. }
    intros Hr. by apply (Hcl root q).
  - intros q. rewrite Hlook. repeat case_decide; try done; set_solver.
Qed.

(** ** Reset and replay *)

Lemma zeroed_id (v v' : Var) :
  shape v' = shape v → grad v = 0%float → zeroed v' = v.
Proof.
  destruct v, v'. unfold shape, zeroed. simpl. intros ? ->. by simplify_eq.
Qed.

Lemma backward_zero_grad (h : Heap) (f : loc) :
  closed h → acyclic h → closures_defined h → is_Some (h !! f) →
  ∃ h1 h2,
    backward h f = Some h1 ∧ zero_grad h1 f = Some h2
    ∧ modifies (reach h f) h h2
    ∧ (∀ q, reach h f q → grad <$> h2 !! q = Some 0%float).
Proof.
  intros Hclosed Hacyclic Hfn Hf.
  destruct (backward_spec h Hclosed Hfn f Hacyclic Hf) as (h1 & Hb & Hm).
  destruct (zero_grad_spec h1 f) as (h2 & visited & Hz & Hvis & Hlook).
  { by eapply modifies_closed. }
  { destruct Hf as [v Hv].
    destruct (modifies_lookup _ _ _ _ _ Hm Hv) as (v' & -> & _). done. }
  assert (∀ q, q ∈ visited ↔ reach h f q) as Hvis'.
  { intros q. rewrite Hvis. by apply modifies_reach with (reach h f). }
  exists h1, h2. split_and!; [done|done| |].
  - intros q. destruct (Hm q) as [Hs Hframe]. rewrite Hlook.
    case_decide as Hq.
    + split; [|by intros []; apply Hvis'].
      rewrite <- Hs. by destruct (h1 !! q).
    + split; [done|]. intros _. apply Hframe. by rewrite <- Hvis'.
  - intros q Hq. rewrite Hlook. rewrite decide_True by (by apply Hvis').
    destruct (reach_in_heap h f q Hclosed Hf Hq) as [v Hv].
    destruct (modifies_lookup _ _ _ _ _ Hm Hv) as (v' & -> & _). done.
Qed.

Lemma reach_decidable (h : Heap) (f q : loc) :
  closed h → is_Some (h !! f) → reach h f q ∨ ¬ reach h f q.
Proof.
  intros Hclosed Hf.
  destruct (zero_grad_spec h f Hclosed Hf) as (_ & visited & _ & Hvis & _).
  destruct (decide (q ∈ visited)) as [Hq|Hq]; [left|right]; by rewrite <- Hvis.
Qed.

Lemma lookup_eq_of_fields (h h' : Heap) (q : loc) :
  shape <$> h' !! q = shape <$> h !! q →
  grad <$> h' !! q = grad <$> h !! q → h' !! q = h !! q.
Proof.
  destruct (h' !! q) as [[]|], (h !! q) as [[]|]; unfold shape; simpl;
    intros; by simplify_eq.
Qed.

(** ** Values and edges are never written *)

Lemma modifies_acyclic (S : loc → Prop) (h h' : Heap) :
  modifies S h h' → acyclic h → acyclic h'.
Proof.
  intros Hm Hac p Hp. apply (Hac p).
  assert (∀ x z, tc (edge h') x z → tc (edge h) x z) as Htc; [|by apply Htc].
  clear p Hp. intros x z Hxz. induction Hxz as [x y Hxy|x y z Hxy _ IH].
  - apply tc_once. by apply (modifies_edge S h h' x y Hm).
  - eapply tc_l; [|done]. by apply (modifies_edge S h h' x y Hm).
Qed.

Lemma modifies_wf (S : loc → Prop) (h h' : Heap) :
  modifies S h h' → wf h → wf h'.
Proof.
  intros Hm (Hcl & Hac & Hfn). split_and!.
  - by eapply modifies_closed.
  - by eapply modifies_acyclic.
  - intros p v' e hh Hp He Hdom.
    destruct (modifies_lookup _ _ _ _ _ (modifies_sym_shape _ _ _ Hm) Hp)
      as (v & Hv & _ & Hedges).
    apply (Hfn p v e hh Hv); [by rewrite Hedges|].
    by rewrite <- (modifies_dom _ _ _ Hm).
Qed.

Lemma set_grad_shape (h h' : Heap) (p : loc) (g : float) :
  set_grad h p g = Some h' → modifies (λ _, True) h h'.
Proof.
  unfold set_grad. intros Hs.
  destruct (h !! p) as [v|] eqn:Hv; simplify_eq/=. by apply modifies_grad.
Qed.

Lemma propagate_shape (h h' : Heap) (node : loc) :
  propagate h node = Some h' → modifies (λ _, True) h h'.
Proof.
  unfold propagate. intros Hp.
  destruct (h !! node) as [v|]; simpl in Hp; [|done].
  eapply (for_each_invariant (modifies (λ _, True) h)); [|..|exact Hp].
  - apply modifies_refl.
  - intros e t t' _ Ht Hstep. simpl in Hstep.
    destruct (grad_fn e (view t)) as [g|]; simpl in Hstep; [|done].
    destruct (t !! input e) as [vt|] eqn:Hvt; simplify_eq/=.
    eapply modifies_trans; [done|]. by apply modifies_grad.
Qed.

Lemma backward_shape (h h' : Heap) (root : loc) :
  backward h root = Some h' → modifies (λ _, True) h h'.
Proof.
  unfold backward. intros Hb.
  destruct (topo_sort _ _ _ _) as [[order visited]|]; simpl in Hb; [|done].
  destruct (set_grad h root 1) as [h1|] eqn:Hseed; simpl in Hb; [|done].
  eapply (for_each_invariant (modifies (λ _, True) h)); [|..|exact Hb].
  - by eapply set_grad_shape.
  - intros node t t' _ Ht Hstep.
    eapply modifies_trans; [done|]. by eapply propagate_shape.
Qed.

Lemma zero_grad_helper_shape (fuel : nat) :
  ∀ this h visited h' visited',
    zero_grad_helper fuel this (h, visited) = Some (h', visited') →
    modifies (λ _, True) h h'.
Proof.
  induction fuel as [|fuel IH]; intros this h visited h' visited' Hz; [done|].
  simpl in Hz. case_decide.
  { simplify_eq. apply modifies_refl. }
  destruct (set_grad h this 0) as [h1|] eqn:Hseed; simpl in Hz; [|done].
  destruct (h1 !! this) as [v|]; simpl in Hz; [|done].
  apply (for_each_invariant (λ st, modifies (λ _, True) h st.1)) in Hz;
    [done|by eapply set_grad_shape|].
  intros e [t vis] [t' vis'] _ Ht Hstep. simpl in *.
  eapply modifies_trans; [done|]. by eapply IH.
Qed.

Lemma zero_grad_shape (h h' : Heap) (root : loc) :
  zero_grad h root = Some h' → modifies (λ _, True) h h'.
Proof.
  unfold zero_grad. intros Hz.
  destruct (zero_grad_helper _ _ _) as [[h2 visited]|] eqn:Hh; [|done].
  injection Hz as <-. by eapply zero_grad_helper_shape.
Qed.

Section call_shape.
Context `{Libm}.

(** A call keeps every node the heap holds, with its value. *)
Lemma call_keeps_values (c : Call) (h h' : Heap) (p : loc) (v : Var) :
  call c h = Some h' → h !! p = Some v →
  ∃ v', h' !! p = Some v' ∧ val v' = val v.
Proof.
  intros Hc Hp. destruct c as [x|b|root|root]; simpl in Hc.
  - simplify_eq. exists v. split; [|done]. unfold new_Var. simpl.
    rewrite lookup_insert_ne; [done|].
    intros <-. pose proof (new_Var_fresh h x). simpl in *. congruence.
  - destruct (build b h) as [[r h2]|] eqn:Hb; simplify_eq/=.
    apply build_spec in Hb as (Hr & _ & vr & -> & _).
    exists v. split; [|done]. rewrite lookup_insert_ne; [done|].
    intros <-. congruence.
  - apply backward_shape in Hc.
    destruct (modifies_lookup _ _ _ _ _ Hc Hp) as (v' & ? & ? & _). eauto.
  - apply zero_grad_shape in Hc.
    destruct (modifies_lookup _ _ _ _ _ Hc Hp) as (v' & ? & ? & _). eauto.
Qed.

End call_shape.

(** ** Every heap the interface produces is well formed *)

Section api.
Context `{Libm}.

Lemma call_wf (c : Call) (h h' : Heap) :
  wf h → call c h = Some h' → wf h'.
Proof.
  intros Hwf Hc. destruct c as [x|b|root|root]; simpl in Hc.
  - simplify_eq. by apply wf_new_Var.
  - destruct (build b h) as [[r h2]|] eqn:Hb; simplify_eq/=.
    apply (wf_build b h r); [done| |done].
    by apply build_spec in Hb as (_ & Hops & _).
  - eapply modifies_wf; [|done]. by eapply backward_shape.
  - eapply modifies_wf; [|done]. by eapply zero_grad_shape.
Qed.

Lemma run_wf (calls : list Call) (h h' : Heap) :
  wf h → run calls h = Some h' → wf h'.
Proof.
  intros Hwf Hrun. unfold run in Hrun.
  eapply (for_each_invariant wf); [exact Hwf| |exact Hrun].
  intros c t t' _ Ht Hc. exact (call_wf c t t' Ht Hc).
Qed.

(** On a well-formed heap a call with valid handles runs to completion. *)
Lemma call_total (c : Call) (h : Heap) :
  wf h → call_ok c h → is_Some (call c h).
Proof.
  intros (Hcl & Hac & Hfn) Hok. destruct c as [x|b|root|root]; simpl in *.
  - done.
  - destruct (build_total b h Hok) as [[r h'] ->]. done.
  - destruct (backward_spec h Hcl Hfn root Hac Hok) as (h1 & -> & _). done.
  - destruct (zero_grad_spec h root Hcl Hok) as (h2 & _ & -> & _). done.
Qed.

End api.

(** ** Facts of binary64 arithmetic the gradients rest on *)

Section float_facts.
Local Open Scope float_scope.

Lemma Prim2SF_one : Prim2SF 1 = S754_finite false 4503599627370496 (-52).
Proof. reflexivity. Qed.

Lemma Prim2SF_zero : Prim2SF 0 = S754_zero false.
Proof. reflexivity. Qed.

Lemma SFeqb_refl (X : spec_float) : X ≠ S754_nan → SFeqb X X = true.
Proof.
  intros HX. destruct X as [s|s| |s m e]; try done.
  - by destruct s.
  - unfold SFeqb, SFcompare.
    rewrite Z.compare_refl, Pos.compare_cont_refl. by destruct s.
Qed.

Lemma is_nan_spec (x : float) : is_nan x = true ↔ Prim2SF x = S754_nan.
Proof.
  unfold is_nan. rewrite FloatAxioms.eqb_spec. split.
  - intros Hx. destruct (Prim2SF x) eqn:E; try done.
    all: rewrite SFeqb_refl in Hx; done.
  - intros ->. done.
Qed.

Lemma add_zero_l (x : float) : is_nan x = false → (0 + x =? x) = true.
Proof.
  intros Hx. rewrite FloatAxioms.eqb_spec, add_spec, Prim2SF_zero.
  assert (Prim2SF x ≠ S754_nan) as Hn.
  { intros E. apply is_nan_spec in E. congruence. }
  destruct (Prim2SF x) as [s|s| |s m e] eqn:E; try done.
  - by destruct s.
  - simpl. by destruct s.
  - unfold SF64add, SFadd. by apply SFeqb_refl.
Qed.

Lemma shr_exact (m : positive) (e : Z) :
  shr (Build_shr_record (Zpos (Pos.mul 4503599627370496 m)) false false) e 52
  = (Build_shr_record (Zpos m) false false, (e + 52)%Z).
Proof. reflexivity. Qed.

Lemma mul_one_l (x : float) : 1 * x = x.
Proof.
  apply Prim2SF_inj. rewrite mul_spec, Prim2SF_one.
  pose proof (Prim2SF_valid x) as Hv.
  destruct (Prim2SF x) as [s|s| |s m e] eqn:E; try done.
  unfold SpecFloat.valid_binary, bounded, canonical_mantissa in Hv.
  apply andb_prop in Hv as [Hc He].
  apply Z.eqb_eq in Hc.
  unfold SF64mul, SFmul. simpl xorb.
  unfold binary_round_aux, shr_fexp.
  assert (Zdigits2 (Z.pos (4503599627370496 * m)) = (Z.pos (digits2_pos m) + 52)%Z) as ->.
  { simpl. rewrite Pos.mul_1_l, !Pos2Z.inj_succ. lia. }
  replace (fexp prec emax (Z.pos (digits2_pos m) + 52 + (-52 + e)))
    with e by (rewrite <- Hc at 1; f_equal; lia).
  replace (e - (-52 + e))%Z with 52%Z by lia.
  cbn [shr_record_of_loc]. rewrite shr_exact. cbn [shr_m loc_of_shr_record round_nearest_even].
  replace (-52 + e + 52)%Z with e by lia.
  cbn [Zdigits2]. rewrite Hc, Z.sub_diag. cbn [shr shr_record_of_loc shr_m].
  by rewrite He.
Qed.

Lemma div_zero (x y : float) :
  (y =? 0) = true → is_nan (x / y) = true ∨ is_infinity (x / y) = true.
Proof.
  rewrite FloatAxioms.eqb_spec, Prim2SF_zero. intros Hy.
  assert (∃ s, Prim2SF y = S754_zero s) as [s Hs].
  { destruct (Prim2SF y) as [s|s| |s m e]; try done; [by eexists|..].
    all: by destruct s. }
  unfold is_infinity. rewrite is_nan_spec, FloatAxioms.eqb_spec, abs_spec, div_spec, Hs.
  destruct (Prim2SF x) as [sx|sx| |sx mx ex]; simpl; auto.
Qed.

Lemma leb_not_ltb (x y : float) :
  (x <=? y) = true → (x <? y) = false → (x =? y) = true.
Proof.
  rewrite leb_spec, ltb_spec, FloatAxioms.eqb_spec.
  unfold SFleb, SFltb, SFeqb. by destruct (SFcompare _ _) as [[]|].
Qed.

End float_facts.

(** ** The order [backward] walks *)

Lemma backward_unfold (h : Heap) (this : loc) :
  backward h this
  = order ← topo_order h this;
    h1 ← set_grad h this 1%float;
    for_each (reverse order) propagate h1.
Proof.
  unfold backward, topo_order.
  by destruct (topo_sort _ _ _ _) as [[order visited]|].
Qed.

Lemma topo_order_spec (h : Heap) (root : loc) :
  closed h → acyclic h → is_Some (h !! root) →
  ∃ order,
    topo_order h root = Some order ∧ NoDup order
    ∧ (∀ q, q ∈ order ↔ reach h root q) ∧ operands_first h order.
Proof.
  intros Hclosed Hacyclic Hroot. unfold topo_order.
  destruct (topo_sort_terminates_from h Hclosed (S (size h)) root [] ∅)
    as (order & visited & Hsort & _); [done| |].
  { rewrite difference_empty_L, size_dom. lia. }
  rewrite Hsort. simpl. exists order.
  destruct (topo_sort_spec h Hacyclic _ _ _ _ _ _ Hsort)
    as (new & -> & _ & Hnew & Hof & Hnd).
  { by intros q ?%elem_of_nil. }
  { by intros i q t ?. }
  { apply NoDup_nil_2. }
  { intros g ?. set_solver. }
  simpl in *. split_and!; [done|done| |done].
  intros q. rewrite Hnew. split; [by intros [? _]|].
  intros ?. split; [done|]. by intros ?%elem_of_nil.
Qed.

Lemma operands_first_before (h : Heap) (order : list loc) (q t : loc) :
  operands_first h order → q ∈ order → edge h q t → before order t q.
Proof.
  intros Hof [i Hi]%list_elem_of_lookup Hqt.
  destruct (Hof i q t Hi Hqt) as (j & Hlt & Hj). by exists j, i.
Qed.

(** * Properties of the specification *)

(** ** Worked examples, on any initial heap *)

Lemma topo_sort_unfold (fuel : nat) (h : Heap) (this : loc)
    (order : list loc) (visited : gset loc) :
  topo_sort (S fuel) h this (order, visited)
  = if decide (this ∈ visited) then Some (order, visited)
    else
      v ← h !! this;
      '(order', visited') ←
        for_each (backward_edges v)
          (λ st' edge, topo_sort fuel h (input edge) st')
          (order, {[this]} ∪ visited);
      Some (order' ++ [this], visited').
Proof. done. Qed.

Lemma topo_sort_leaf (fuel : nat) (h : Heap) (this : loc)
    (order : list loc) (visited : gset loc) (v : Var) :
  this ∉ visited → h !! this = Some v → backward_edges v = [] →
  topo_sort (S fuel) h this (order, visited)
  = Some (order ++ [this], {[this]} ∪ visited).
Proof.
  intros Hvis Hv He. rewrite topo_sort_unfold, decide_False by done.
  rewrite Hv. simpl. by rewrite He.
Qed.

Lemma backward_eq (h : Heap) (this : loc) :
  backward h this
  = '(order, visited) ← topo_sort (S (size h)) h this ([], ∅);
    h1 ← set_grad h this 1%float;
    for_each (reverse order) propagate h1.
Proof. done. Qed.

Lemma fresh_lookup (h : Heap) : h !! fresh (dom h) = None.
Proof. apply not_elem_of_dom, is_fresh. Qed.

Lemma fresh_ne (h : Heap) (p q : loc) (v : Var) :
  h !! p = None → h !! q = Some v → p ≠ q.
Proof. intros Hp Hq ->. congruence. Qed.

Section runs.
#[local] Arguments topo_sort : simpl never.
#[local] Arguments propagate : simpl never.
#[local] Arguments backward : simpl never.

(** Names the address [p] allocated next in [m] and the heap [h] it is put in. *)
Ltac alloc m p h Hp :=
  set (p := fresh (dom m));
  pose proof (fresh_lookup m : m !! p = None) as Hp;
  let pv := constr:(p) in
  match goal with
  | |- context [@insert _ _ _ _ pv ?v m] => set (h := <[pv := v]> m)
  end.

Ltac lookups :=
  repeat (rewrite ?lookup_insert_eq, ?lookup_insert_ne by done; simpl).

(** C1. For [x = leaf(2)], [y = leaf(3)], [f = mul(add(x, y), x)], built in
    any heap: the value of [f] is 10.0, and after [backward(f)] the gradient
    of [x] is 7.0 and the gradient of [y] is 2.0. *)
Theorem composite_example (h0 : Heap) :
  composite_run h0 = Some (10, 7, 2)%float.
Proof.
  unfold composite_run, op_add, op_mul, new_Var.
  alloc h0 x h1 Hx. alloc h1 y h2 Hy.
  assert (h1 !! x = Some (Var_ctor 2)) as Hx1 by apply lookup_insert_eq.
  pose proof (fresh_ne _ _ _ _ Hy Hx1) as Hyx.
  assert (h2 !! x = Some (Var_ctor 2)) as Hx2 by (unfold h2; by lookups).
  assert (h2 !! y = Some (Var_ctor 3)) as Hy2 by apply lookup_insert_eq.
  rewrite Hx2, Hy2. simpl. repeat (rewrite add_edge_insert; simpl).
  alloc h2 s h3 Hs.
  pose proof (fresh_ne _ _ _ _ Hs Hx2) as Hsx.
  pose proof (fresh_ne _ _ _ _ Hs Hy2) as Hsy.
  assert (h3 !! x = Some (Var_ctor 2)) as Hx3 by (unfold h3; by lookups).
  assert (h3 !! y = Some (Var_ctor 3)) as Hy3 by (unfold h3; by lookups).
  eassert (h3 !! s = Some _) as Hs3 by (unfold h3; apply lookup_insert_eq).
  rewrite Hs3, Hx3. simpl. repeat (rewrite add_edge_insert; simpl).
  alloc h3 f h4 Hf.
  pose proof (fresh_ne _ _ _ _ Hf Hx3) as Hfx.
  pose proof (fresh_ne _ _ _ _ Hf Hy3) as Hfy.
  pose proof (fresh_ne _ _ _ _ Hf Hs3) as Hfs.
  assert (h4 !! x = Some (Var_ctor 2)) as Hx4 by (unfold h4; by lookups).
  assert (h4 !! y = Some (Var_ctor 3)) as Hy4 by (unfold h4; by lookups).
  eassert (h4 !! s = Some _) as Hs4 by (unfold h4; lookups; exact Hs3).
  eassert (h4 !! f = Some _) as Hf4 by (unfold h4; apply lookup_insert_eq).
  assert (size h4 = S (S (S (S (size h0))))) as Hsize.
  { unfold h4, h3, h2, h1. by rewrite !map_size_insert_None. }
  clearbody h4 f s y x. clear h1 h2 h3 Hx Hy Hs Hf Hx1 Hx2 Hy2 Hs3 Hx3 Hy3.
  rewrite Hf4. simpl.
  rewrite (backward_eq h4 f), Hsize.
  rewrite topo_sort_unfold, decide_False by set_solver.
  rewrite Hf4. simpl.
  rewrite topo_sort_unfold, decide_False by set_solver.
  rewrite Hs4. simpl.
  rewrite (topo_sort_leaf _ h4 x [] _ (Var_ctor 2)); [|set_solver|done|done].
  simpl.
  rewrite (topo_sort_leaf _ h4 y [x] _ (Var_ctor 3)); [|set_solver|done|done].
  simpl. rewrite topo_sort_unfold, decide_True by set_solver.
  simpl. unfold set_grad. rewrite Hf4. simpl.
  unfold propagate, view. simpl.
  repeat (rewrite ?lookup_insert_eq, ?lookup_insert_ne, ?Hx4, ?Hy4, ?Hs4
            by done; simpl).
  done.
Qed.

(** C2. For [x = leaf(3)] and [y = mul(x, x)], the same node being both
    operands: the value of [y] is 9.0 and after [backward(y)] the gradient of
    [x] is 6.0.  Both edges that target the shared node contribute and the
    contributions sum: for a leaf of any value [v] the gradient is
    [0.0 + 1.0 * v + 1.0 * v]. *)
Theorem diamond_example (h0 : Heap) :
  diamond_run h0 3 = Some (9, 6)%float
  ∧ ∀ v, diamond_run h0 v = Some ((v * v)%float, (0 + 1 * v + 1 * v)%float).
Proof.
  assert (∀ v, diamond_run h0 v
               = Some ((v * v)%float, (0 + 1 * v + 1 * v)%float)) as Hrun;
    [|split; [by rewrite Hrun|done]].
  intros v. unfold diamond_run, op_mul, new_Var.
  alloc h0 x h1 Hx.
  assert (h1 !! x = Some (Var_ctor v)) as Hx1 by apply lookup_insert_eq.
  rewrite Hx1. simpl. repeat (rewrite add_edge_insert; simpl).
  alloc h1 y h2 Hy.
  pose proof (fresh_ne _ _ _ _ Hy Hx1) as Hyx.
  assert (h2 !! x = Some (Var_ctor v)) as Hx2 by (unfold h2; by lookups).
  eassert (h2 !! y = Some _) as Hy2 by (unfold h2; apply lookup_insert_eq).
  assert (size h2 = S (S (size h0))) as Hsize.
  { unfold h2, h1. by rewrite !map_size_insert_None. }
  clearbody h2 y x. clear h1 Hx Hy Hx1.
  rewrite Hy2. simpl.
  rewrite (backward_eq h2 y), Hsize.
  rewrite topo_sort_unfold, decide_False by set_solver.
  rewrite Hy2. simpl.
  rewrite (topo_sort_leaf _ h2 x [] _ (Var_ctor v)); [|set_solver|done|done].
  simpl. rewrite topo_sort_unfold, decide_True by set_solver.
  simpl. unfold set_grad. rewrite Hy2. simpl.
  unfold propagate, view. simpl.
  repeat (rewrite ?lookup_insert_eq, ?lookup_insert_ne, ?Hx2 by done; simpl).
  done.
Qed.

Lemma quotient_run_eq (h0 : Heap) (va vb : float) :
  quotient_run h0 va vb
  = Some ((0 + 1 / vb)%float, (0 + 1 * (- va / (vb * vb)))%float).
Proof.
  unfold quotient_run, op_div, new_Var.
  alloc h0 a h1 Ha. alloc h1 b h2 Hb.
  assert (h1 !! a = Some (Var_ctor va)) as Ha1 by apply lookup_insert_eq.
  pose proof (fresh_ne _ _ _ _ Hb Ha1) as Hba.
  assert (h2 !! a = Some (Var_ctor va)) as Ha2 by (unfold h2; by lookups).
  assert (h2 !! b = Some (Var_ctor vb)) as Hb2 by apply lookup_insert_eq.
  rewrite Ha2, Hb2. simpl. repeat (rewrite add_edge_insert; simpl).
  alloc h2 f h3 Hf.
  pose proof (fresh_ne _ _ _ _ Hf Ha2) as Hfa.
  pose proof (fresh_ne _ _ _ _ Hf Hb2) as Hfb.
  assert (h3 !! a = Some (Var_ctor va)) as Ha3 by (unfold h3; by lookups).
  assert (h3 !! b = Some (Var_ctor vb)) as Hb3 by (unfold h3; by lookups).
  eassert (h3 !! f = Some _) as Hf3 by (unfold h3; apply lookup_insert_eq).
  assert (size h3 = S (S (S (size h0)))) as Hsize.
  { unfold h3, h2, h1. by rewrite !map_size_insert_None. }
  clearbody h3 f b a. clear h1 h2 Ha Hb Hf Ha1 Ha2 Hb2.
  rewrite (backward_eq h3 f), Hsize.
  rewrite topo_sort_unfold, decide_False by set_solver.
  rewrite Hf3. simpl.
  rewrite (topo_sort_leaf _ h3 a [] _ (Var_ctor va)); [|set_solver|done|done].
  simpl.
  rewrite (topo_sort_leaf _ h3 b [a] _ (Var_ctor vb)); [|set_solver|done|done].
  simpl. unfold set_grad. rewrite Hf3. simpl.
  unfold propagate, view. simpl.
  repeat (rewrite ?lookup_insert_eq, ?lookup_insert_ne, ?Ha3, ?Hb3 by done;
          simpl).
  done.
Qed.

(** C10. Two consecutive [backward(f)] calls on [f = mul(leaf(2), leaf(3))]
    with no [zero_grad] in between accumulate into the operands and re-assign
    the seed of the root: the gradients of [x], [y] and [f] are 6.0, 4.0 and
    1.0. *)
Theorem backward_twice_example (h0 : Heap) :
  twice_run h0 = Some (6, 4, 1)%float.
Proof.
  unfold twice_run, op_mul, new_Var.
  alloc h0 x h1 Hx. alloc h1 y h2 Hy.
  assert (h1 !! x = Some (Var_ctor 2)) as Hx1 by apply lookup_insert_eq.
  pose proof (fresh_ne _ _ _ _ Hy Hx1) as Hyx.
  assert (h2 !! x = Some (Var_ctor 2)) as Hx2 by (unfold h2; by lookups).
  assert (h2 !! y = Some (Var_ctor 3)) as Hy2 by apply lookup_insert_eq.
  rewrite Hx2, Hy2. simpl. repeat (rewrite add_edge_insert; simpl).
  alloc h2 f h3 Hf.
  pose proof (fresh_ne _ _ _ _ Hf Hx2) as Hfx.
  pose proof (fresh_ne _ _ _ _ Hf Hy2) as Hfy.
  assert (h3 !! x = Some (Var_ctor 2)) as Hx3 by (unfold h3; by lookups).
  assert (h3 !! y = Some (Var_ctor 3)) as Hy3 by (unfold h3; by lookups).
  eassert (h3 !! f = Some _) as Hf3 by (unfold h3; apply lookup_insert_eq).
  assert (size h3 = S (S (S (size h0)))) as Hsize.
  { unfold h3, h2, h1. by rewrite !map_size_insert_None. }
  clearbody h3 f y x. clear h1 h2 Hx Hy Hf Hx1 Hx2 Hy2.
  rewrite (backward_eq h3 f), Hsize.
  rewrite topo_sort_unfold, decide_False by set_solver.
  rewrite Hf3. simpl.
  rewrite (topo_sort_leaf _ h3 x [] _ (Var_ctor 2)); [|set_solver|done|done].
  simpl.
  rewrite (topo_sort_leaf _ h3 y [x] _ (Var_ctor 3)); [|set_solver|done|done].
  simpl. unfold set_grad. rewrite Hf3. simpl.
  unfold propagate, view. simpl.
  repeat (rewrite ?lookup_insert_eq, ?lookup_insert_ne, ?Hx3, ?Hy3 by done;
          simpl).
  match goal with
  | |- context [backward ?m f] => set (h4 := m)
  end.
  eassert (h4 !! x = Some _) as Hx4 by (unfold h4; lookups; reflexivity).
  eassert (h4 !! y = Some _) as Hy4 by (unfold h4; lookups; reflexivity).
  eassert (h4 !! f = Some _) as Hf4 by (unfold h4; lookups; reflexivity).
  assert (size h4 = S (S (S (size h0)))) as Hsize4.
  { unfold h4.
    repeat (erewrite map_size_insert_Some; [|by lookups; eauto]). done. }
  clearbody h4.
  rewrite (backward_eq h4 f), Hsize4.
  rewrite topo_sort_unfold, decide_False by set_solver.
  rewrite Hf4. simpl.
  erewrite (topo_sort_leaf _ h4 x []); [|set_solver|exact Hx4|done].
  simpl.
  erewrite (topo_sort_leaf _ h4 y [x]); [|set_solver|exact Hy4|done].
  simpl. unfold set_grad. rewrite Hf4. simpl.
  unfold propagate, view. simpl.
  repeat (rewrite ?lookup_insert_eq, ?lookup_insert_ne, ?Hx4, ?Hy4 by done;
          simpl).
  done.
Qed.

End runs.

(** ** Sample graphs are well formed *)

Lemma wf_product_graph : wf product_graph.
Proof.
  apply (wf_build (H := sample_libm) (BMul 0 1)
           (new_Var (new_Var ∅ 2%float).2 3%float).2 2).
  - apply wf_new_Var, wf_new_Var, wf_empty.
  - intros a Ha. simpl in Ha.
    repeat (apply elem_of_cons in Ha as [->|Ha]); try by apply elem_of_nil in Ha.
    all: vm_compute; eauto.
  - reflexivity.
Qed.

Lemma wf_composite_graph : wf composite_graph.
Proof.
  apply (wf_build (H := sample_libm) (BMul 2 0)
           (default ∅ (snd <$> op_add (new_Var (new_Var ∅ 2%float).2 3%float).2 0 1)) 3).
  - apply (wf_build (H := sample_libm) (BAdd 0 1)
             (new_Var (new_Var ∅ 2%float).2 3%float).2 2).
    + apply wf_new_Var, wf_new_Var, wf_empty.
    + intros a Ha. simpl in Ha.
      repeat (apply elem_of_cons in Ha as [->|Ha]); try by apply elem_of_nil in Ha.
      all: vm_compute; eauto.
    + reflexivity.
  - intros a Ha. simpl in Ha.
    repeat (apply elem_of_cons in Ha as [->|Ha]); try by apply elem_of_nil in Ha.
    all: vm_compute; eauto.
  - reflexivity.
Qed.

(** ** The topological order *)

(** C4. For every DAG and root, the sequence the traversal produces contains
    each node reachable from the root exactly once, and every node of the
    sequence stands after all of its operands, the inputs of its backward
    edges. *)
Theorem topo_order_complete_sorted (h : Heap) (root : loc) :
  closed h → acyclic h → is_Some (h !! root) →
  ∃ order,
    topo_order h root = Some order
    ∧ NoDup order
    ∧ (∀ q, q ∈ order ↔ reach h root q)
    ∧ (∀ q t, q ∈ order → edge h q t → before order t q).
Proof.
  intros Hclosed Hacyclic Hroot.
  destruct (topo_order_spec h root Hclosed Hacyclic Hroot)
    as (order & Horder & Hnd & Hin & Hof).
  exists order. split_and!; [done|done|done|].
  intros q t. by apply operands_first_before.
Qed.

Lemma topo_order_complete_sorted_witness :
  ∃ order,
    topo_order composite_graph 3 = Some order
    ∧ NoDup order
    ∧ (∀ q, q ∈ order ↔ reach composite_graph 3 q)
    ∧ (∀ q t, q ∈ order → edge composite_graph q t → before order t q).
Proof.
  apply (topo_order_complete_sorted composite_graph 3).
  - apply wf_composite_graph.
  - apply wf_composite_graph.
  - vm_compute. eauto.
Defined.

(** C3, as the code has it.  For every node [c] reachable from the root and
    every operand [n] of [c] (so [c] is a consumer of [n]), [n] stands
    strictly before [c] in the post order the traversal produces; therefore
    [c] stands strictly before [n] in the reversed order, which is the order
    [backward] processes. *)
Theorem consumer_before_operand_in_reverse (h : Heap) (root n c : loc) :
  closed h → acyclic h → is_Some (h !! root) →
  reach h root c → edge h c n →
  ∃ order,
    topo_order h root = Some order
    ∧ before order n c
    ∧ before (reverse order) c n
    ∧ backward h root
      = (h1 ← set_grad h root 1%float; for_each (reverse order) propagate h1).
Proof.
  intros Hclosed Hacyclic Hroot Hc Hcn.
  destruct (topo_order_spec h root Hclosed Hacyclic Hroot)
    as (order & Horder & Hnd & Hin & Hof).
  assert (before order n c) as Hbefore.
  { apply (operands_first_before h); [done|by apply Hin|done]. }
  exists order. split_and!; [done|done|by apply before_reverse|].
  by rewrite backward_unfold, Horder.
Qed.

Lemma consumer_before_operand_in_reverse_witness :
  ∃ order,
    topo_order composite_graph 3 = Some order
    ∧ before order 0 2
    ∧ before (reverse order) 2 0
    ∧ backward composite_graph 3
      = (h1 ← set_grad composite_graph 3 1%float;
         for_each (reverse order) propagate h1).
Proof.
  apply (consumer_before_operand_in_reverse composite_graph 3 0 2).
  - apply wf_composite_graph.
  - apply wf_composite_graph.
  - vm_compute. eauto.
  - eapply rtc_l; [|apply rtc_refl].
    eexists _, {| input := 2; grad_fn := _ |}.
    split_and!; [vm_compute; reflexivity|left|done].
  - eexists _, {| input := 0; grad_fn := _ |}.
    split_and!; [vm_compute; reflexivity|left|done].
Defined.

(** C3, as stated, fails: in the graph of [f = mul(x, y)] the consumer [f]
    of [x] does not stand before [x] in the post order, which is
    [x; y; f]. *)
Lemma consumer_first_in_post_order_counterexample :
  closed product_graph ∧ acyclic product_graph
  ∧ reach product_graph 2 0 ∧ reach product_graph 2 2 ∧ edge product_graph 2 0
  ∧ topo_order product_graph 2 = Some [0; 1; 2]
  ∧ ¬ before [0; 1; 2] 2 0.
Proof.
  assert (edge product_graph 2 0) as Hedge.
  { eexists _, {| input := 0; grad_fn := _ |}.
    split_and!; [vm_compute; reflexivity|left|done]. }
  split_and!; [apply wf_product_graph|apply wf_product_graph| | |done| |].
  - by apply rtc_once.
  - apply rtc_refl.
  - vm_compute. reflexivity.
  - intros (i & j & Hi & Hj & Hlt).
    destruct i as [|[|[|i]]]; simplify_eq/=.
    destruct j as [|[|[|j]]]; simplify_eq/=. lia.
Qed.

(** ** Reset *)

(** C5, as the code has it.  For every DAG and root [f] whose reachable nodes
    all have gradient 0.0 (a graph just built, or just reset): after
    [backward(f)] followed by [zero_grad(f)] every node reachable from [f] has
    gradient 0.0, and a further [backward(f)] leaves every reachable node
    with exactly the gradient it had after the first [backward(f)]. *)
Theorem reset_then_backward_reproduces (h : Heap) (f : loc) :
  closed h → acyclic h → closures_defined h → is_Some (h !! f) →
  (∀ q, reach h f q → grad <$> h !! q = Some 0%float) →
  ∃ h1 h2 h3,
    backward h f = Some h1 ∧ zero_grad h1 f = Some h2
    ∧ backward h2 f = Some h3
    ∧ (∀ q, reach h f q → grad <$> h2 !! q = Some 0%float)
    ∧ (∀ q, reach h f q → grad <$> h3 !! q = grad <$> h1 !! q).
Proof.
  intros Hclosed Hacyclic Hfn Hf Hinit.
  destruct (backward_zero_grad h f Hclosed Hacyclic Hfn Hf)
    as (h1 & h2 & Hb & Hz & Hm & Hzero).
  assert (h2 = h) as Heq.
  { apply map_eq. intros q. destruct (Hm q) as [Hs Hframe].
    destruct (reach_decidable h f q Hclosed Hf) as [Hq|Hq]; [|by apply Hframe].
    apply lookup_eq_of_fields; [done|]. by rewrite Hzero, Hinit. }
  exists h1, h2, h1. rewrite Heq at 2. done.
Qed.

Lemma reset_then_backward_reproduces_witness :
  ∃ h1 h2 h3,
    backward composite_graph 3 = Some h1 ∧ zero_grad h1 3 = Some h2
    ∧ backward h2 3 = Some h3
    ∧ (∀ q, reach composite_graph 3 q → grad <$> h2 !! q = Some 0%float)
    ∧ (∀ q, reach composite_graph 3 q → grad <$> h3 !! q = grad <$> h1 !! q).
Proof.
  apply (reset_then_backward_reproduces composite_graph 3).
  - apply wf_composite_graph.
  - apply wf_composite_graph.
  - apply wf_composite_graph.
  - vm_compute. eauto.
  - intros q Hq.
    apply (reach_in_heap composite_graph 3 q) in Hq;
      [|apply wf_composite_graph|vm_compute; eauto].
    apply elem_of_dom in Hq.
    replace (dom composite_graph) with ({[0; 1; 2; 3]} : gset loc) in Hq
      by (vm_compute; reflexivity).
    repeat (apply elem_of_union in Hq as [Hq|Hq]);
      apply elem_of_singleton in Hq as ->; vm_compute; reflexivity.
Defined.

(** C5, as stated for every graph, fails: on [accumulated_graph], whose
    gradients are not zero, the first [backward(f)] leaves 6.0 in [x] and the
    [backward(f)] after [zero_grad(f)] leaves 3.0. *)
Lemma reset_reproduces_counterexample :
  closed accumulated_graph ∧ acyclic accumulated_graph
  ∧ closures_defined accumulated_graph ∧ reach accumulated_graph 2 0
  ∧ ∃ h1 h2 h3,
      backward accumulated_graph 2 = Some h1 ∧ zero_grad h1 2 = Some h2
      ∧ backward h2 2 = Some h3
      ∧ grad <$> h1 !! 0 = Some 6%float ∧ grad <$> h3 !! 0 = Some 3%float
      ∧ (6 =? 3)%float = false.
Proof.
  assert (wf accumulated_graph) as Hwf.
  { destruct wf_product_graph as (Hcl & Hac & Hfn).
    destruct (backward_spec product_graph Hcl Hfn 2 Hac) as (h1 & Hb & Hm);
      [vm_compute; eauto|].
    unfold accumulated_graph. rewrite Hb. simpl.
    exact (modifies_wf _ _ _ Hm wf_product_graph). }
  destruct Hwf as (Hcl & Hac & Hfn). split_and!; [done|done|done| |].
  - apply rtc_once. eexists _, {| input := 0; grad_fn := _ |}.
    split_and!; [vm_compute; reflexivity|left|done].
  - exists (default ∅ (backward accumulated_graph 2)),
      (default ∅ (h1 ← backward accumulated_graph 2; zero_grad h1 2)),
      (default ∅ (h1 ← backward accumulated_graph 2; h2 ← zero_grad h1 2;
                  backward h2 2)).
    split_and!; vm_compute; reflexivity.
Qed.

(** ** The builders *)

(** C6. Every builder is pure with respect to its inputs: each operand node
    is in the heap before the call and is the same record after it (value,
    gradient and edge list), every other node is the same too, and only the
    result node, at an address that held no node, is new. *)
Theorem builders_pure `{Libm} (b : Builder) (h : Heap) (r : loc) (h' : Heap) :
  build b h = Some (r, h') →
  (∀ a, a ∈ operands b → is_Some (h !! a) ∧ h' !! a = h !! a)
  ∧ (∀ p, p ≠ r → h' !! p = h !! p)
  ∧ h !! r = None ∧ is_Some (h' !! r) ∧ dom h' = {[r]} ∪ dom h.
Proof.
  intros (Hr & Hops & v & -> & _)%build_spec. split_and!.
  - intros a Ha. split; [by apply Hops|].
    rewrite lookup_insert_ne; [done|]. intros ->.
    destruct (Hops a Ha) as [? ?]. congruence.
  - intros p Hp. by rewrite lookup_insert_ne.
  - done.
  - by rewrite lookup_insert_eq.
  - by rewrite dom_insert_L.
Qed.

Lemma builders_pure_witness :
  let r := fresh (dom composite_graph) in
  let h' := default ∅ (snd <$> op_mul composite_graph 2 0) in
  (∀ a, a ∈ operands (BMul 2 0) →
     is_Some (composite_graph !! a) ∧ h' !! a = composite_graph !! a)
  ∧ (∀ p, p ≠ r → h' !! p = composite_graph !! p)
  ∧ composite_graph !! r = None ∧ is_Some (h' !! r)
  ∧ dom h' = {[r]} ∪ dom composite_graph.
Proof.
  apply (builders_pure (H := sample_libm) (BMul 2 0) composite_graph).
  vm_compute. reflexivity.
Defined.

(** C7. The value of a node is immutable once the node is constructed: no
    sequence of public calls (leaves, builders, [backward], [zero_grad])
    changes the value of a node that exists when the sequence starts, and the
    node stays in the heap. *)
Theorem value_immutable `{Libm} (calls : list Call) (h h' : Heap)
    (p : loc) (v : Var) :
  run calls h = Some h' → h !! p = Some v →
  ∃ v', h' !! p = Some v' ∧ val v' = val v.
Proof.
  intros Hrun Hp. unfold run in Hrun.
  eapply (for_each_invariant
            (λ hh, ∃ v', hh !! p = Some v' ∧ val v' = val v));
    [| |exact Hrun].
  - by exists v.
  - intros c t t' _ (v' & Hv' & Hval) Hc.
    destruct (call_keeps_values c t t' p v' Hc Hv') as (v'' & ? & ?).
    exists v''. split; [done|congruence].
Qed.

Lemma value_immutable_witness :
  let calls :=
    [CLeaf 7%float; CBuild (BDiv 3 4); CBackward 5; CZeroGrad 5;
     CBuild (BLog 5); CBackward 6; CBackward 3] in
  let h' := default ∅ (run (H := sample_libm) calls composite_graph) in
  ∃ v', h' !! 3 = Some v'
        ∧ val v' = val (default (Var_ctor 0%float) (composite_graph !! 3)).
Proof.
  intros calls h'.
  apply (value_immutable (H := sample_libm) calls composite_graph h' 3).
  - vm_compute. reflexivity.
  - vm_compute. reflexivity.
Defined.

Lemma sample_libm_log (x : float) :
  (x <=? 0)%float = true →
  is_nan (c_log (Libm := sample_libm) x) = true
  ∨ is_infinity (c_log (Libm := sample_libm) x) = true.
Proof.
  intros Hle. simpl. destruct (x <? 0)%float eqn:Hlt; [by left|].
  rewrite (leb_not_ltb _ _ Hle Hlt). by right.
Qed.

(** C9. No builder fails: on every heap that holds its operands, whatever
    their values, a builder returns a node whose value is the binary64 result
    of its operation.  For [div] with a zero divisor that result is an
    infinity or NaN; for [log] of an operand that is not positive it is what
    the C library returns there, an infinity or NaN. *)
Theorem builders_never_fail `{Libm} (b : Builder) (h : Heap) :
  (∀ x, (x <=? 0)%float = true →
     is_nan (c_log x) = true ∨ is_infinity (c_log x) = true) →
  (∀ a, a ∈ operands b → is_Some (h !! a)) →
  ∃ r h' v,
    build b h = Some (r, h') ∧ h' !! r = Some v
    ∧ spec_result b h = Some (val v)
    ∧ (∀ a d vd, b = BDiv a d → h !! d = Some vd →
         (val vd =? 0)%float = true →
         is_nan (val v) = true ∨ is_infinity (val v) = true)
    ∧ (∀ a va, b = BLog a → h !! a = Some va →
         (val va <=? 0)%float = true →
         is_nan (val v) = true ∨ is_infinity (val v) = true).
Proof.
  intros Hlog Hops.
  destruct b; simpl in *;
    unfold op_add, op_sub, op_mul, op_div, op_neg, op_pow, op_sin, op_cos,
      op_exp, op_log, new_Var.
  all: repeat match goal with
       | |- context [@lookup _ _ (gmap _ _) _ ?a ?m] =>
           let Hx := fresh "Hx" in
           assert (is_Some (m !! a)) as [? Hx] by (apply Hops; set_solver);
           rewrite !Hx; simpl
       end.
  all: repeat (rewrite add_edge_insert; simpl).
  all: eexists _, _, _; split_and!;
    [reflexivity|apply lookup_insert_eq|reflexivity| |].
  all: simpl; intros; simplify_eq; auto using div_zero.
Qed.

Lemma builders_never_fail_witness :
  let h := (new_Var (new_Var ∅ 1%float).2 0%float).2 in
  ∃ r h' v,
    build (H := sample_libm) (BDiv 0 1) h = Some (r, h') ∧ h' !! r = Some v
    ∧ spec_result (H := sample_libm) (BDiv 0 1) h = Some (val v)
    ∧ (∀ a d vd, BDiv 0 1 = BDiv a d → h !! d = Some vd →
         (val vd =? 0)%float = true →
         is_nan (val v) = true ∨ is_infinity (val v) = true)
    ∧ (∀ a va, BDiv 0 1 = BLog a → h !! a = Some va →
         (val va <=? 0)%float = true →
         is_nan (val v) = true ∨ is_infinity (val v) = true).
Proof.
  intros h.
  apply (builders_never_fail (H := sample_libm) (BDiv 0 1) h).
  - apply sample_libm_log.
  - intros a Ha. simpl in Ha.
    repeat (apply elem_of_cons in Ha as [->|Ha]); try by apply elem_of_nil in Ha.
    all: vm_compute; eauto.
Defined.

(** ** The quotient rule *)

(** C8, as the code has it.  For leaves [a] and [b] of any values, made in
    any heap, and [f = div(a, b)], after [backward(f)] the gradient of [a] is
    [0.0 + 1.0 / b.value] and the gradient of [b] is
    [0.0 + 1.0 * (-a.value / (b.value * b.value))] in binary64 arithmetic;
    they compare equal ([==]) to [1 / b.value] and to
    [-a.value / (b.value * b.value)] whenever these are not NaN.  In
    particular [a = leaf(4)], [b = leaf(2)] gives 0.5 and -1.0. *)
Theorem quotient_rule :
  (∀ (h0 : Heap) (va vb : float),
     ∃ ga gb,
       quotient_run h0 va vb = Some (ga, gb)
       ∧ ga = (0 + 1 / vb)%float
       ∧ gb = (0 + 1 * (- va / (vb * vb)))%float
       ∧ (is_nan (1 / vb) = false → (ga =? 1 / vb)%float = true)
       ∧ (is_nan (- va / (vb * vb)) = false →
            (gb =? - va / (vb * vb))%float = true))
  ∧ (∀ h0 : Heap, quotient_run h0 4 2 = Some (0.5, -1)%float).
Proof.
  split.
  - intros h0 va vb. eexists _, _. split; [apply quotient_run_eq|].
    split_and!; [done|done|by apply add_zero_l|].
    rewrite mul_one_l. by apply add_zero_l.
  - intros h0. by rewrite quotient_run_eq.
Qed.

(** C8, as stated, fails: a NaN divisor is different from zero, and the
    gradient of [a], NaN, does not compare equal to [1 / b.value], NaN. *)
Lemma quotient_rule_nan_counterexample :
  ∃ ga gb,
    quotient_run ∅ 4 nan = Some (ga, gb)
    ∧ (nan =? 0)%float = false
    ∧ (ga =? 1 / nan)%float = false.
Proof.
  eexists _, _. split; [vm_compute; reflexivity|]. split; vm_compute; reflexivity.
Qed.

(** * Further properties of the code *)

(** ** The traversal on any graph, cycles included *)

Section topo_sort_visits.
Variable h : Heap.

(** What one call of [topo_sort] appends, with no assumption on the graph:
    the nodes it marks, each once, each a node of the heap reached from
    [this], with all of its operands marked on return. *)
Lemma topo_sort_visits (fuel : nat) :
  ∀ this order visited order' visited',
    topo_sort fuel h this (order, visited) = Some (order', visited') →
    ∃ new,
      order' = order ++ new ∧ NoDup new
      ∧ visited' = visited ∪ list_to_set new
      ∧ (∀ q, q ∈ new → q ∉ visited)
      ∧ this ∈ visited'
      ∧ (this ∉ visited → last new = Some this)
      ∧ (∀ q, q ∈ new →
           is_Some (h !! q) ∧ reach h this q ∧ ∀ t, edge h q t → t ∈ visited').
Proof.
  induction fuel as [|fuel IH];
    intros this order visited order' visited' Hrun; [done|].
  simpl in Hrun. case_decide as Hvis.
  { injection Hrun as <- <-. exists []. rewrite app_nil_r.
    split_and!; [done|apply NoDup_nil_2|set_solver| |done|done|];
      by intros q ?%elem_of_nil. }
  destruct (h !! this) as [v|] eqn:Hv; simpl in Hrun; [|done].
  destruct (for_each _ _ _) as [[o1 vis1]|] eqn:Hloop; simplify_eq/=.
  assert (∀ es o vis o' vis',
    for_each es (λ st' e, topo_sort fuel h (input e) st') (o, vis)
      = Some (o', vis') →
    (∀ e, e ∈ es → e ∈ backward_edges v) →
    ∃ new,
      o' = o ++ new ∧ NoDup new ∧ vis' = vis ∪ list_to_set new
      ∧ (∀ q, q ∈ new → q ∉ vis)
      ∧ (∀ e, e ∈ es → input e ∈ vis')
      ∧ (∀ q, q ∈ new →
           is_Some (h !! q) ∧ (∃ e, e ∈ es ∧ reach h (input e) q)
           ∧ ∀ t, edge h q t → t ∈ vis')) as Hloop_spec.
  { induction es as [|e es IHes]; intros o vis o' vis' Hes Hin.
    - simpl in Hes. simplify_eq. exists []. rewrite app_nil_r.
      split_and!; [done|apply NoDup_nil_2|set_solver|..];
        by intros q ?%elem_of_nil.
    - simpl in Hes.
      destruct (topo_sort fuel h (input e) (o, vis)) as [[o2 vis2]|] eqn:He;
        simpl in Hes; [|done].
      destruct (IH _ _ _ _ _ He)
        as (new1 & -> & Hnd1 & -> & Hfresh1 & Hin1 & _ & Hnew1).
      destruct (IHes _ _ _ _ Hes)
        as (new2 & -> & Hnd2 & -> & Hfresh2 & Hin2 & Hnew2);
        [by intros e' ?; apply Hin; right|].
      exists (new1 ++ new2). rewrite !(assoc_L (++)).
      split_and!; [done| |set_solver| | |].
      + apply NoDup_app. split_and!; [done| |done].
        intros q Hq1 Hq2. apply (Hfresh2 q Hq2). set_solver.
      + intros q [Hq|Hq]%elem_of_app; [by apply Hfresh1|].
        intros Hqv. apply (Hfresh2 q Hq). set_solver.
      + intros e' [->|He']%elem_of_cons; [set_solver|by apply Hin2].
      + intros q [Hq|Hq]%elem_of_app.
        * destruct (Hnew1 q Hq) as (Hsome & Hr & Hch). split_and!; [done| |].
          -- exists e. split; [left|done].
          -- intros t Ht. specialize (Hch t Ht). set_solver.
        * destruct (Hnew2 q Hq) as (Hsome & (e' & He' & Hr) & Hch).
          split_and!; [done| |done]. exists e'. split; [by right|done]. }
  destruct (Hloop_spec _ _ _ _ _ Hloop)
    as (new & -> & Hnd & -> & Hfresh & Hin & Hnew); [done|].
  exists (new ++ [this]). rewrite !(assoc_L (++)).
  split_and!; [done| |set_solver| |set_solver| |].
  - apply NoDup_app. split_and!; [done| |apply NoDup_singleton].
    intros q Hq ->%list_elem_of_singleton. apply (Hfresh this Hq). set_solver.
  - intros q [Hq|Hq]%elem_of_app;
      [|by apply list_elem_of_singleton in Hq as ->].
    intros Hqv. apply (Hfresh q Hq). set_solver.
  - intros _. by rewrite last_snoc.
  - intros q [Hq|Hq]%elem_of_app;
      [|apply list_elem_of_singleton in Hq as ->].
    + destruct (Hnew q Hq) as (Hsome & (e & He & Hr) & Hch).
      split_and!; [done| |done]. eapply rtc_l; [|done]. by exists v, e.
    + split_and!; [by rewrite Hv|done|].
      intros t (v' & e & ? & He & <-). simplify_eq. by apply Hin.
Qed.

(** At the top level the marked nodes are the reachable ones. *)
Lemma topo_order_visits (root : loc) (order : list loc) :
  topo_order h root = Some order →
  NoDup order ∧ last order = Some root
  ∧ (∀ q, q ∈ order ↔ reach h root q)
  ∧ (∀ q, reach h root q → is_Some (h !! q)).
Proof.
  unfold topo_order. intros Horder.
  destruct (topo_sort _ _ _ _) as [[o vis]|] eqn:Hsort; [|done].
  injection Horder as <-.
  apply topo_sort_visits in Hsort
    as (new & -> & Hnd & -> & _ & Hroot & Hlast & Hnew).
  simpl in *.
  assert (∀ x y, reach h x y → x ∈ new → y ∈ new) as Hcl.
  { intros x y Hxy. induction Hxy as [|x y z Hxy _ IH]; [done|].
    intros Hx. apply IH. destruct (Hnew x Hx) as (_ & _ & Hch).
    specialize (Hch y Hxy). set_solver. }
  assert (root ∈ new) as Hin by set_solver.
  split_and!; [done|apply Hlast; set_solver| |].
  - intros q. split; [by intros Hq; apply Hnew|]. intros Hq. by apply (Hcl root).
  - intros q Hq. by apply Hnew, (Hcl root).
Qed.

End topo_sort_visits.

Lemma closed_cyclic_graph : closed cyclic_graph.
Proof.
  intros p t (v & e & Hp & He & <-). unfold cyclic_graph in *.
  destruct (decide (p = 0)) as [->|]; [|destruct (decide (p = 1)) as [->|]];
    simplify_map_eq;
    repeat (apply elem_of_cons in He as [->|He]);
    try (by apply elem_of_nil in He); simpl; by simplify_map_eq.
Qed.

Lemma cyclic_graph_cycle : ¬ acyclic cyclic_graph.
Proof.
  intros Hac. apply (Hac 0). eapply tc_l; [|apply tc_once].
  - eexists _, {| input := 1; grad_fn := _ |}.
    split_and!; [vm_compute; reflexivity|left|done].
  - eexists _, {| input := 0; grad_fn := _ |}.
    split_and!; [vm_compute; reflexivity|left|done].
Qed.

(** X1. On every graph whose edges stay in the heap, cycles included, the
    traversal returns (with the depth [backward] allows it): the visited set
    is filled before the recursion, so a cycle is cut.  The sequence holds
    each node reachable from the root exactly once, and the root comes
    last. *)
Theorem topo_order_any_graph (h : Heap) (root : loc) :
  closed h → is_Some (h !! root) →
  ∃ order,
    topo_order h root = Some order ∧ NoDup order
    ∧ (∀ q, q ∈ order ↔ reach h root q)
    ∧ last order = Some root.
Proof.
  intros Hclosed Hroot.
  destruct (topo_sort_terminates_from h Hclosed (S (size h)) root [] ∅)
    as (order & visited & Hsort & _); [done| |].
  { rewrite difference_empty_L, size_dom. lia. }
  assert (topo_order h root = Some order) as Horder.
  { unfold topo_order. by rewrite Hsort. }
  destruct (topo_order_visits h root order Horder) as (Hnd & Hlast & Hin & _).
  by exists order.
Qed.

Lemma topo_order_any_graph_witness :
  ¬ acyclic cyclic_graph
  ∧ ∃ order,
      topo_order cyclic_graph 0 = Some order ∧ NoDup order
      ∧ (∀ q, q ∈ order ↔ reach cyclic_graph 0 q)
      ∧ last order = Some 0.
Proof.
  split; [apply cyclic_graph_cycle|].
  apply (topo_order_any_graph cyclic_graph 0).
  - apply closed_cyclic_graph.
  - vm_compute. eauto.
Defined.

(** ** What [backward] writes *)

Lemma backward_strict (h : Heap) (root : loc) (v : Var) :
  closed h → closures_defined h → h !! root = Some v →
  ∃ h1,
    backward h root = Some h1
    ∧ modifies (tc (edge h) root)
        (<[root := {| val := val v; grad := 1%float;
                      backward_edges := backward_edges v |}]> h) h1.
Proof.
  intros Hclosed Hfn Hv.
  destruct (topo_order_any_graph h root Hclosed) as (order & Horder & _ & Hin & _);
    [by eauto|].
  rewrite backward_unfold, Horder. simpl.
  unfold set_grad. rewrite Hv. simpl.
  set (hseed := <[root := _]> h).
  assert (modifies (λ _, True) h hseed) as Hseed by (by apply modifies_grad).
  apply (for_each_total (modifies (tc (edge h) root) hseed));
    [apply modifies_refl|].
  intros node t Hnode Ht. rewrite elem_of_reverse in Hnode.
  apply Hin in Hnode.
  apply (propagate_spec hseed).
  - by eapply modifies_closed.
  - intros p v' e hh Hp He Hdom.
    destruct (modifies_lookup _ _ _ _ _ (modifies_sym_shape _ _ _ Hseed) Hp)
      as (v0 & Hv0 & _ & Hedges).
    apply (Hfn p v0 e hh Hv0); [by rewrite Hedges|].
    by rewrite <- (modifies_dom _ _ _ Hseed).
  - destruct (reach_in_heap h root node Hclosed) as [vn Hvn]; [by eauto|done|].
    destruct (modifies_lookup _ _ _ _ _ Hseed Hvn) as (vn' & -> & _). done.
  - intros c Hc. apply (modifies_edge _ _ _ node c Hseed) in Hc.
    eapply tc_rtc_l; [done|by apply tc_once].
  - done.
Qed.

(** X2. [backward] completes on every well-formed graph, keeps the set of
    nodes, and writes gradients only: every node keeps its value and its
    edges, and a node that is not reachable from the root keeps its gradient
    too. *)
Theorem backward_frame (h : Heap) (root : loc) :
  closed h → acyclic h → closures_defined h → is_Some (h !! root) →
  ∃ h1,
    backward h root = Some h1 ∧ dom h1 = dom h
    ∧ ∀ p v, h !! p = Some v →
        ∃ v1, h1 !! p = Some v1 ∧ val v1 = val v
              ∧ backward_edges v1 = backward_edges v
              ∧ (¬ reach h root p → grad v1 = grad v).
Proof.
  intros Hclosed Hacyclic Hfn Hroot.
  destruct (backward_spec h Hclosed Hfn root Hacyclic Hroot) as (h1 & Hb & Hm).
  exists h1. split_and!; [done|by eapply modifies_dom|].
  intros p v Hp.
  destruct (modifies_lookup _ _ _ _ _ Hm Hp) as (v1 & Hp1 & Hval & Hedges).
  exists v1. split_and!; [done..|].
  intros Hnr. destruct (Hm p) as [_ Hframe].
  rewrite (Hframe Hnr), Hp in Hp1. by simplify_eq.
Qed.

Lemma backward_frame_witness :
  ∃ h1,
    backward composite_graph 2 = Some h1 ∧ dom h1 = dom composite_graph
    ∧ ∀ p v, composite_graph !! p = Some v →
        ∃ v1, h1 !! p = Some v1 ∧ val v1 = val v
              ∧ backward_edges v1 = backward_edges v
              ∧ (¬ reach composite_graph 2 p → grad v1 = grad v).
Proof.
  apply (backward_frame composite_graph 2).
  - apply wf_composite_graph.
  - apply wf_composite_graph.
  - apply wf_composite_graph.
  - vm_compute. eauto.
Defined.

(** X3. On a DAG the seed survives the pass: after [backward(root)] the
    gradient of the root is exactly 1.0, whatever it was before, because no
    node processed afterwards has an edge back to the root. *)
Theorem backward_seeds_root (h : Heap) (root : loc) :
  closed h → acyclic h → closures_defined h → is_Some (h !! root) →
  ∃ h1, backward h root = Some h1 ∧ grad <$> h1 !! root = Some 1%float.
Proof.
  intros Hclosed Hacyclic Hfn [v Hv].
  destruct (backward_strict h root v Hclosed Hfn Hv) as (h1 & Hb & Hm).
  exists h1. split; [done|].
  destruct (Hm root) as [_ Hframe].
  rewrite Hframe by apply Hacyclic. by rewrite lookup_insert_eq.
Qed.

Lemma backward_seeds_root_witness :
  grad <$> accumulated_graph !! 0 = Some 3%float
  ∧ ∃ h1,
      backward accumulated_graph 0 = Some h1
      ∧ grad <$> h1 !! 0 = Some 1%float.
Proof.
  split; [vm_compute; reflexivity|].
  assert (wf accumulated_graph) as (Hcl & Hac & Hfn).
  { destruct wf_product_graph as (Hcl & Hac & Hfn).
    destruct (backward_spec product_graph Hcl Hfn 2 Hac) as (h1 & Hb & Hm);
      [vm_compute; eauto|].
    unfold accumulated_graph. rewrite Hb. simpl.
    exact (modifies_wf _ _ _ Hm wf_product_graph). }
  apply (backward_seeds_root accumulated_graph 0 Hcl Hac Hfn).
  vm_compute. eauto.
Defined.

(** ** What [zero_grad] writes *)

(** X4. On every graph whose edges stay in the heap, cycles included,
    [zero_grad(root)] completes and resets exactly the nodes reachable from
    the root: each of them keeps its value and edges and has gradient 0.0,
    and every other node is the same record as before. *)
Theorem zero_grad_effect (h : Heap) (root : loc) :
  closed h → is_Some (h !! root) →
  ∃ h2,
    zero_grad h root = Some h2
    ∧ (∀ p, reach h root p → h2 !! p = zeroed <$> h !! p)
    ∧ (∀ p, ¬ reach h root p → h2 !! p = h !! p).
Proof.
  intros Hclosed Hroot.
  destruct (zero_grad_spec h root Hclosed Hroot)
    as (h2 & visited & Hz & Hvis & Hlook).
  exists h2. split_and!; [done|..]; intros p Hp; rewrite Hlook.
  - by rewrite decide_True by (by apply Hvis).
  - by rewrite decide_False by (by rewrite Hvis).
Qed.

Lemma zero_grad_effect_witness :
  ¬ acyclic cyclic_graph
  ∧ ∃ h2,
      zero_grad cyclic_graph 1 = Some h2
      ∧ (∀ p, reach cyclic_graph 1 p → h2 !! p = zeroed <$> cyclic_graph !! p)
      ∧ (∀ p, ¬ reach cyclic_graph 1 p → h2 !! p = cyclic_graph !! p).
Proof.
  split; [apply cyclic_graph_cycle|].
  apply (zero_grad_effect cyclic_graph 1).
  - apply closed_cyclic_graph.
  - vm_compute. eauto.
Defined.

(** X5. [zero_grad] is idempotent: a second [zero_grad(root)] right after the
    first one leaves the heap as the first one left it. *)
Theorem zero_grad_idempotent (h : Heap) (root : loc) :
  closed h → is_Some (h !! root) →
  ∃ h2, zero_grad h root = Some h2 ∧ zero_grad h2 root = Some h2.
Proof.
  intros Hclosed Hroot.
  destruct (zero_grad_spec h root Hclosed Hroot)
    as (h2 & visited & Hz & Hvis & Hlook).
  exists h2. split; [done|].
  pose proof (zero_grad_shape h h2 root Hz) as Hm.
  destruct (zero_grad_spec h2 root) as (h3 & visited' & Hz' & Hvis' & Hlook').
  { by eapply modifies_closed. }
  { destruct Hroot as [v Hv].
    destruct (modifies_lookup _ _ _ _ _ Hm Hv) as (v' & -> & _). done. }
  rewrite Hz'. f_equal. apply map_eq. intros p. rewrite Hlook'.
  case_decide as Hp; [|done].
  rewrite Hlook. rewrite decide_True.
  - by destruct (h !! p).
  - apply Hvis. apply Hvis' in Hp. by apply (modifies_reach _ h h2 root p Hm).
Qed.

Lemma zero_grad_idempotent_witness :
  ∃ h2,
    zero_grad accumulated_graph 2 = Some h2 ∧ zero_grad h2 2 = Some h2.
Proof.
  apply (zero_grad_idempotent accumulated_graph 2).
  - destruct wf_product_graph as (Hcl & Hac & Hfn).
    destruct (backward_spec product_graph Hcl Hfn 2 Hac) as (h1 & Hb & Hm);
      [vm_compute; eauto|].
    unfold accumulated_graph. rewrite Hb. simpl.
    by eapply modifies_closed.
  - vm_compute. eauto.
Defined.

(** ** Graphs made through the interface *)

(** X6. The graph is a DAG by construction: whatever sequence of leaves,
    builders, [backward] and [zero_grad] calls is run from the empty heap,
    every backward edge of the heap it leaves points to a node of the heap,
    there is no cycle, and every closure reads only nodes of the heap. *)
Theorem interface_graphs_well_formed `{Libm} (calls : list Call) (h : Heap) :
  run calls ∅ = Some h → closed h ∧ acyclic h ∧ closures_defined h.
Proof.
  intros Hrun. unfold run in Hrun.
  eapply (for_each_invariant wf); [exact wf_empty| |exact Hrun].
  intros c t t' _ Ht Hc. exact (call_wf c t t' Ht Hc).
Qed.

Lemma interface_graphs_well_formed_witness :
  let calls :=
    [CLeaf 2%float; CLeaf 3%float; CBuild (BAdd 0 1); CBuild (BMul 2 0);
     CBackward 3; CBuild (BLog 3); CZeroGrad 2; CBackward 4] in
  let h := default ∅ (run (H := sample_libm) calls ∅) in
  size h = 5 ∧ closed h ∧ acyclic h ∧ closures_defined h.
Proof.
  intros calls h. split; [vm_compute; reflexivity|].
  apply (interface_graphs_well_formed (H := sample_libm) calls h).
  vm_compute. reflexivity.
Defined.

(** X7. On a graph made through the interface no call is undefined and none
    runs forever: a leaf, a builder whose operands are nodes of the heap, and
    [backward] or [zero_grad] from a node of the heap all return. *)
Theorem interface_calls_return `{Libm} (calls : list Call) (h : Heap)
    (c : Call) :
  run calls ∅ = Some h → call_ok c h → is_Some (call c h).
Proof.
  intros Hrun Hok. apply call_total; [|done].
  exact (run_wf calls ∅ h wf_empty Hrun).
Qed.

Lemma interface_calls_return_witness :
  let calls :=
    [CLeaf 2%float; CLeaf 0%float; CBuild (BDiv 0 1); CBackward 2] in
  let h := default ∅ (run (H := sample_libm) calls ∅) in
  is_Some (call (H := sample_libm) (CBackward 2) h).
Proof.
  intros calls h.
  apply (interface_calls_return (H := sample_libm) calls h (CBackward 2)).
  - vm_compute. reflexivity.
  - vm_compute. eauto.
Defined.

(** ** The derivative rules, on any initial heap *)

Section rules.
Context `{Libm}.
#[local] Arguments topo_sort : simpl never.
#[local] Arguments propagate : simpl never.
#[local] Arguments backward : simpl never.

Ltac alloc m p h Hp :=
  set (p := fresh (dom m));
  pose proof (fresh_lookup m : m !! p = None) as Hp;
  let pv := constr:(p) in
  match goal with
  | |- context [@insert _ _ _ _ pv ?v m] => set (h := <[pv := v]> m)
  end.

Ltac lookups :=
  repeat (rewrite ?lookup_insert_eq, ?lookup_insert_ne by done; simpl).

(** The run of a builder of one operand on a fresh leaf, step by step. *)
Ltac run_one_operand h0 v :=
  let x := fresh "x" in let f := fresh "f" in
  let h1 := fresh "h" in let h2 := fresh "h" in
  let Hx := fresh "Hx" in let Hf := fresh "Hf" in
  let Hx1 := fresh "Hx" in let Hx2 := fresh "Hx" in
  let Hf2 := fresh "Hf" in let Hfx := fresh "Hfx" in
  let Hsize := fresh "Hsize" in
  unfold new_Var;
  alloc h0 x h1 Hx;
  assert (h1 !! x = Some (Var_ctor v)) as Hx1 by apply lookup_insert_eq;
  rewrite ?Hx1; simpl; repeat (rewrite add_edge_insert; simpl);
  alloc h1 f h2 Hf;
  pose proof (fresh_ne _ _ _ _ Hf Hx1) as Hfx;
  assert (h2 !! x = Some (Var_ctor v)) as Hx2 by (unfold h2; by lookups);
  eassert (h2 !! f = Some _) as Hf2 by (unfold h2; apply lookup_insert_eq);
  assert (size h2 = S (S (size h0))) as Hsize
    by (unfold h2, h1; by rewrite !map_size_insert_None);
  clearbody h2 f x; clear h1 Hx Hf Hx1;
  rewrite Hf2; simpl;
  rewrite (backward_eq h2 f), Hsize;
  rewrite topo_sort_unfold, decide_False by set_solver;
  rewrite Hf2; simpl;
  rewrite (topo_sort_leaf _ h2 x [] _ (Var_ctor v)); [|set_solver|done|done];
  simpl; rewrite ?topo_sort_unfold, ?decide_True by set_solver;
  simpl; unfold set_grad; rewrite Hf2; simpl;
  unfold propagate, view; simpl;
  repeat (rewrite ?lookup_insert_eq, ?lookup_insert_ne, ?Hx2 by done; simpl).

(** X8. The derivative rules of the builders of one operand.  For a leaf [x]
    of any value [v], made in any heap, and [f = u(x)] with [u] one of [neg],
    [pow(., n)], [sin], [cos], [exp], [log]: the value of [f] is the result
    column of the table, and after [backward(f)] the gradient of [x] is
    [0.0 + p] with [p] the partial-derivative column ([-1], [n * v^(n-1)],
    [cos v], [-sin v], [exp v], [1 / v]); it compares equal to [p] unless [p]
    is NaN. *)
Theorem unary_rules (u : Unary) (h0 : Heap) (v : float) :
  ∃ gx,
    unary_run u h0 v = Some (unary_value u v, gx)
    ∧ gx = (0 + unary_partial u v)%float
    ∧ (is_nan (unary_partial u v) = false →
         (gx =? unary_partial u v)%float = true).
Proof.
  eexists. split_and!; [|reflexivity|apply add_zero_l].
  unfold unary_run.
  destruct u; simpl;
    unfold op_neg, op_pow, op_sin, op_cos, op_exp, op_log;
    run_one_operand h0 v; rewrite ?mul_one_l; done.
Qed.

(** The run of a builder of two operands on two fresh leaves. *)
Ltac run_two_operands h0 va vb :=
  let a := fresh "a" in let b := fresh "b" in let f := fresh "f" in
  let h1 := fresh "h" in let h2 := fresh "h" in let h3 := fresh "h" in
  let Ha := fresh "Ha" in let Hb := fresh "Hb" in let Hf := fresh "Hf" in
  let Ha1 := fresh "Ha" in let Ha2 := fresh "Ha" in let Ha3 := fresh "Ha" in
  let Hb2 := fresh "Hb" in let Hb3 := fresh "Hb" in let Hf3 := fresh "Hf" in
  let Hba := fresh "Hba" in let Hfa := fresh "Hfa" in let Hfb := fresh "Hfb" in
  let Hsize := fresh "Hsize" in
  unfold new_Var;
  alloc h0 a h1 Ha; alloc h1 b h2 Hb;
  assert (h1 !! a = Some (Var_ctor va)) as Ha1 by apply lookup_insert_eq;
  pose proof (fresh_ne _ _ _ _ Hb Ha1) as Hba;
  assert (h2 !! a = Some (Var_ctor va)) as Ha2 by (unfold h2; by lookups);
  assert (h2 !! b = Some (Var_ctor vb)) as Hb2 by apply lookup_insert_eq;
  rewrite Ha2, Hb2; simpl; repeat (rewrite add_edge_insert; simpl);
  alloc h2 f h3 Hf;
  pose proof (fresh_ne _ _ _ _ Hf Ha2) as Hfa;
  pose proof (fresh_ne _ _ _ _ Hf Hb2) as Hfb;
  assert (h3 !! a = Some (Var_ctor va)) as Ha3 by (unfold h3; by lookups);
  assert (h3 !! b = Some (Var_ctor vb)) as Hb3 by (unfold h3; by lookups);
  eassert (h3 !! f = Some _) as Hf3 by (unfold h3; apply lookup_insert_eq);
  assert (size h3 = S (S (S (size h0)))) as Hsize
    by (unfold h3, h2, h1; by rewrite !map_size_insert_None);
  clearbody h3 f b a; clear h1 h2 Ha Hb Hf Ha1 Ha2 Hb2;
  rewrite Hf3; simpl;
  rewrite (backward_eq h3 f), Hsize;
  rewrite topo_sort_unfold, decide_False by set_solver;
  rewrite Hf3; simpl;
  rewrite (topo_sort_leaf _ h3 a [] _ (Var_ctor va)); [|set_solver|done|done];
  simpl;
  rewrite (topo_sort_leaf _ h3 b [a] _ (Var_ctor vb)); [|set_solver|done|done];
  simpl; unfold set_grad; rewrite Hf3; simpl;
  unfold propagate, view; simpl;
  repeat (rewrite ?lookup_insert_eq, ?lookup_insert_ne, ?Ha3, ?Hb3 by done;
          simpl).

Lemma binary_run_mul (h0 : Heap) (va vb : float) :
  binary_run op_mul h0 va vb
  = Some ((va * vb)%float, (0 + vb)%float, (0 + va)%float).
Proof.
  unfold binary_run, op_mul. run_two_operands h0 va vb.
  rewrite !mul_one_l. done.
Qed.

(** X9. The sum, difference and product rules.  For distinct leaves [a] and
    [b] of any values, made in any heap, after [backward(f)]: for
    [f = add(a, b)] the gradients are exactly 1.0 and 1.0; for
    [f = sub(a, b)] exactly 1.0 and -1.0; for [f = mul(a, b)] they are
    [0.0 + b.value] and [0.0 + a.value], equal ([==]) to [b.value] and
    [a.value] unless these are NaN. *)
Theorem binary_rules (h0 : Heap) (va vb : float) :
  binary_run op_add h0 va vb = Some ((va + vb)%float, 1%float, 1%float)
  ∧ binary_run op_sub h0 va vb = Some ((va - vb)%float, 1%float, (-1)%float)
  ∧ ∃ ga gb,
      binary_run op_mul h0 va vb = Some ((va * vb)%float, ga, gb)
      ∧ ga = (0 + vb)%float ∧ gb = (0 + va)%float
      ∧ (is_nan vb = false → (ga =? vb)%float = true)
      ∧ (is_nan va = false → (gb =? va)%float = true).
Proof.
  split_and!.
  - unfold binary_run, op_add. run_two_operands h0 va vb. done.
  - unfold binary_run, op_sub. run_two_operands h0 va vb. done.
  - eexists _, _. split_and!; [|reflexivity|reflexivity|apply add_zero_l..].
    unfold binary_run, op_mul. run_two_operands h0 va vb.
    rewrite !mul_one_l. done.
Qed.

(** X10. One node as both operands.  For a leaf [x] of any value [v] and
    [f = add(x, x)], after [backward(f)] the gradient of [x] is exactly 2.0;
    for [f = sub(x, x)] it is exactly 0.0: the contributions of the two
    edges, 1.0 and -1.0, cancel. *)
Theorem shared_operand_rules (h0 : Heap) (v : float) :
  shared_run op_add h0 v = Some ((v + v)%float, 2%float)
  ∧ shared_run op_sub h0 v = Some ((v - v)%float, 0%float).
Proof.
  split.
  - unfold shared_run, op_add. run_one_operand h0 v. done.
  - unfold shared_run, op_sub. run_one_operand h0 v. done.
Qed.

End rules.

(** ** The chain rule, for chains of any length *)

Section chain_rule.
Context `{Libm}.

Lemma chain_grad_from_snoc (us : list Unary) (u : Unary) (v g : float) :
  chain_grad_from (us ++ [u]) v g
  = chain_grad_from us v (0 + unary_pullback u (chain_value us v) g)%float.
Proof. revert v. induction us as [|u' us IH]; intros v; simpl; [done|]. by rewrite IH. Qed.

Lemma chain_value_snoc (us : list Unary) (u : Unary) (v : float) :
  chain_value (us ++ [u]) v = unary_value u (chain_value us v).
Proof. revert v. induction us as [|u' us IH]; intros v; simpl; [done|]. by rewrite IH. Qed.

Lemma shape_Some (o : option Var) (v : float) (es : list BackwardEdge) :
  shape <$> o = Some (v, es) →
  ∃ r, o = Some r ∧ val r = v ∧ backward_edges r = es.
Proof.
  destruct o as [r|]; simpl; [|done]. unfold shape. intros ?. simplify_eq.
  by exists r.
Qed.

Lemma chain_facts (h : Heap) (x : loc) (v : float) us ns top vt :
  chain h x v us ns top vt →
  NoDup ns ∧ last ns = Some top ∧ head ns = Some x
  ∧ (∀ n, n ∈ ns → is_Some (h !! n))
  ∧ val <$> h !! top = Some vt ∧ vt = chain_value us v
  ∧ length ns = S (length us).
Proof.
  induction 1 as [Hx|us ns top vt u n e Hch IH Hn Hshape Hrule].
  - split_and!; [apply NoDup_singleton|done|done| | |done|done].
    + intros n ->%list_elem_of_singleton.
      apply shape_Some in Hx as (r & -> & _). done.
    + apply shape_Some in Hx as (r & -> & <- & _). done.
  - destruct IH as (Hnd & Hlast & Hhead & Hin & Hval & -> & Hlen).
    split_and!.
    + apply NoDup_app. split_and!; [done| |apply NoDup_singleton].
      by intros q Hq ->%list_elem_of_singleton.
    + by rewrite last_snoc.
    + by destruct ns.
    + intros q [Hq|Hq]%elem_of_app; [by apply Hin|].
      apply list_elem_of_singleton in Hq as ->.
      apply shape_Some in Hshape as (r & -> & _). done.
    + apply shape_Some in Hshape as (r & -> & <- & _). done.
    + by rewrite chain_value_snoc.
    + rewrite !length_app. simpl. lia.
Qed.

Lemma chain_same_shape (h h' : Heap) (x : loc) (v : float) us ns top vt :
  (∀ n, n ∈ ns → shape <$> h' !! n = shape <$> h !! n) →
  chain h x v us ns top vt → chain h' x v us ns top vt.
Proof.
  intros Hsame Hch. induction Hch as [Hx|us ns top vt u n e Hch IH Hn Hshape Hrule].
  - apply chain_leaf. rewrite Hsame; [done|by apply list_elem_of_singleton].
  - eapply chain_node; [|done| |done].
    + apply IH. intros q Hq. apply Hsame. apply elem_of_app. by left.
    + rewrite Hsame; [done|]. apply elem_of_app. right.
      by apply list_elem_of_singleton.
Qed.

Lemma build_unary (u : Unary) (h : Heap) (a : loc) (va : Var) :
  h !! a = Some va →
  ∃ r e,
    h !! r = None
    ∧ build (unary_builder u a) h
      = Some (r, <[r := {| val := unary_value u (val va); grad := 0%float;
                           backward_edges := [e] |}]> h)
    ∧ edge_rule u r a e.
Proof.
  intros Ha.
  destruct u; simpl;
    unfold op_neg, op_pow, op_sin, op_cos, op_exp, op_log, new_Var;
    rewrite Ha; simpl; rewrite add_edge_insert; simpl.
  all: eexists _, _; split_and!; [apply fresh_lookup|reflexivity|].
  all: split; [done|]; intros hh vn va' Hn Ha' Hval; unfold view; simpl.
  all: rewrite Hn, ?Ha'; simpl; rewrite ?Hval; done.
Qed.

Lemma chain_build_spec (rest : list Unary) :
  ∀ us h top ns vt x v,
    chain h x v us ns top vt →
    (∀ n, n ∈ ns → grad <$> h !! n = Some 0%float) →
    ∃ f h' ns',
      chain_build rest h top = Some (f, h')
      ∧ chain h' x v (us ++ rest) ns' f (chain_value rest vt)
      ∧ (∀ n, n ∈ ns' → grad <$> h' !! n = Some 0%float).
Proof.
  induction rest as [|u rest IH]; intros us h top ns vt x v Hch Hzero; simpl.
  { exists top, h, ns. by rewrite app_nil_r. }
  destruct (chain_facts _ _ _ _ _ _ _ Hch)
    as (Hnd & Hlast & _ & Hin & Hval & _ & _).
  destruct (h !! top) as [vtop|] eqn:Htop; simplify_eq/=.
  destruct (build_unary u h top vtop Htop) as (r & e & Hr & -> & Hrule).
  simpl. set (h1 := <[r := _]> h).
  assert (r ∉ ns) as Hrns.
  { intros [? ?]%Hin. congruence. }
  assert (∀ n, n ∈ ns → h1 !! n = h !! n) as Hold.
  { intros n Hn. unfold h1. rewrite lookup_insert_ne; [done|].
    intros ->. done. }
  destruct (IH (us ++ [u]) h1 r (ns ++ [r]) (unary_value u (val vtop)) x v)
    as (f & h' & ns' & -> & Hch' & Hzero').
  - eapply chain_node; [|done| |done].
    + eapply chain_same_shape; [|done]. intros n Hn. by rewrite Hold.
    + unfold h1. by rewrite lookup_insert_eq.
  - intros n [Hn|Hn]%elem_of_app.
    + rewrite Hold by done. by apply Hzero.
    + apply list_elem_of_singleton in Hn as ->. unfold h1.
      by rewrite lookup_insert_eq.
  - exists f, h', ns'. rewrite <- app_assoc in Hch'. done.
Qed.

Lemma chain_topo (h : Heap) (x : loc) (v : float) us ns top vt :
  chain h x v us ns top vt →
  ∀ fuel order visited,
    length ns ≤ fuel → (∀ n, n ∈ ns → n ∉ visited) →
    topo_sort fuel h top (order, visited)
    = Some (order ++ ns, list_to_set ns ∪ visited).
Proof.
  induction 1 as [Hx|us ns top vt u n e Hch IH Hn Hshape Hrule];
    intros fuel order visited Hfuel Hvis.
  - destruct fuel as [|fuel]; [simpl in Hfuel; lia|].
    apply shape_Some in Hx as (r & Hr & _ & Hedges).
    rewrite (topo_sort_leaf fuel h x order visited r);
      [|apply Hvis; by apply list_elem_of_singleton|done|done].
    f_equal. f_equal. set_solver.
  - destruct fuel as [|fuel]; [rewrite length_app in Hfuel; simpl in Hfuel; lia|].
    rewrite topo_sort_unfold, decide_False
      by (apply Hvis, elem_of_app; right; by apply list_elem_of_singleton).
    apply shape_Some in Hshape as (r & Hr & _ & Hedges).
    rewrite Hr. simpl. rewrite Hedges. simpl.
    destruct Hrule as [-> _].
    rewrite IH.
    + simpl. rewrite <- app_assoc. f_equal. f_equal.
      rewrite list_to_set_app_L. set_solver.
    + rewrite length_app in Hfuel. simpl in Hfuel. lia.
    + intros q Hq. intros [->%elem_of_singleton|Hqv]%elem_of_union; [done|].
      apply (Hvis q); [|done]. apply elem_of_app. by left.
Qed.

Lemma propagate_leaf (hh : Heap) (n : loc) (r : Var) :
  hh !! n = Some r → backward_edges r = [] → propagate hh n = Some hh.
Proof. intros Hn He. unfold propagate. rewrite Hn. simpl. by rewrite He. Qed.

Lemma propagate_single (hh : Heap) (n : loc) (r t : Var) (e : BackwardEdge)
    (c : float) :
  hh !! n = Some r → backward_edges r = [e] →
  grad_fn e (view hh) = Some c → hh !! input e = Some t →
  propagate hh n
  = Some (<[input e := {| val := val t; grad := grad t + c;
                          backward_edges := backward_edges t |}]> hh).
Proof.
  intros Hn He Hc Ht. unfold propagate. rewrite Hn. simpl. rewrite He. simpl.
  rewrite Hc. simpl. by rewrite Ht.
Qed.

Lemma chain_sweep (h : Heap) (x : loc) (v : float) us ns top vt :
  chain h x v us ns top vt →
  ∀ hh g,
    (∀ n, n ∈ ns → shape <$> hh !! n = shape <$> h !! n) →
    grad <$> hh !! top = Some g →
    (∀ n, n ∈ ns → n ≠ top → grad <$> hh !! n = Some 0%float) →
    ∃ hh',
      for_each (reverse ns) propagate hh = Some hh'
      ∧ grad <$> hh' !! x = Some (chain_grad_from us v g).
Proof.
  induction 1 as [Hx|us ns top vt u n e Hch IH Hn Hshape Hrule];
    intros hh g Hsame Hg Hzero.
  - rewrite <- Hsame in Hx by (by apply list_elem_of_singleton).
    apply shape_Some in Hx as (r & Hr & _ & Hedges).
    simpl. rewrite (propagate_leaf hh x r Hr Hedges). simpl.
    exists hh. by split.
  - rewrite reverse_snoc. simpl.
    destruct (chain_facts _ _ _ _ _ _ _ Hch)
      as (Hnd & Hlast & _ & Hin & Hval & Hvt & _).
    assert (top ∈ ns) as Htop.
    { apply list_elem_of_lookup. exists (pred (length ns)).
      by rewrite <- last_lookup. }
    assert (top ≠ n) as Htn by (intros ->; done).
    rewrite <- Hsame in Hshape
      by (apply elem_of_app; right; by apply list_elem_of_singleton).
    apply shape_Some in Hshape as (rn & Hrn & Hvaln & Hedges).
    assert (∃ rtop, hh !! top = Some rtop ∧ val rtop = vt)
      as (rtop & Hrtop & Hvaltop).
    { assert (shape <$> hh !! top = shape <$> h !! top) as Hs
        by (apply Hsame, elem_of_app; by left).
      revert Hs Hval. unfold shape.
      destruct (h !! top) as [r0|], (hh !! top) as [r1|]; simpl;
        intros Hs Hval; simplify_eq. exists r1. split; [done|congruence]. }
    subst vt. rewrite <- Hvaltop in Hvaln.
    destruct Hrule as [Hinput Hrule].
    assert (grad rtop = 0%float) as Hgtop.
    { specialize (Hzero top). rewrite Hrtop in Hzero. simpl in Hzero.
      assert (Some (grad rtop) = Some 0%float) as Heq; [|by simplify_eq].
      apply Hzero; [apply elem_of_app; by left|done]. }
    rewrite (propagate_single hh n rn rtop e _ Hrn Hedges
               (Hrule hh rn rtop Hrn Hrtop Hvaln));
      [|by rewrite Hinput].
    simpl. rewrite Hinput, Hgtop.
    set (hh1 := <[top := _]> hh).
    destruct (IH hh1 (0 + unary_pullback u (val rtop) (grad rn))%float)
      as (hh' & Hrun & Hgx).
    + intros q Hq. unfold hh1. destruct (decide (q = top)) as [->|Hne].
      * rewrite lookup_insert_eq. rewrite <- Hsame by (apply elem_of_app; by left).
        by rewrite Hrtop.
      * rewrite lookup_insert_ne by done. apply Hsame, elem_of_app. by left.
    + unfold hh1. by rewrite lookup_insert_eq.
    + intros q Hq Hne. unfold hh1. rewrite lookup_insert_ne by done.
      apply Hzero; [apply elem_of_app; by left|]. intros ->. done.
    + exists hh'. split; [done|]. rewrite Hgx. f_equal.
      rewrite chain_grad_from_snoc, <- Hvaltop. rewrite Hrn in Hg.
      simpl in Hg. by simplify_eq.
Qed.

Lemma NoDup_length_le_size (h : Heap) (ns : list loc) :
  NoDup ns → (∀ n, n ∈ ns → is_Some (h !! n)) → length ns ≤ size h.
Proof.
  intros Hnd Hin. rewrite <- size_dom.
  rewrite <- (size_list_to_set (C := gset loc) ns) by done.
  apply subseteq_size. intros n Hn%elem_of_list_to_set.
  by apply elem_of_dom, Hin.
Qed.

(** X11. The chain rule, for chains of any length.  For a leaf [x] of any
    value, made in any heap, and [f = u_k(... u_1(x) ...)] with each [u_i]
    one of [neg], [pow(., n)], [sin], [cos], [exp], [log]: building never
    fails, the value of [f] is the composition of the operations, and
    [backward(f)] leaves in [x] the nested product of the local partials,
    each node below [f] receiving [0.0 + result.grad * partial] from its one
    consumer, and [f] itself the seed 1.0. *)
Theorem chain_rule (us : list Unary) (h0 : Heap) (v : float) :
  chain_run us h0 v = Some (chain_value us v, chain_grad_from us v 1%float).
Proof.
  unfold chain_run, new_Var.
  set (x := fresh (dom h0)). set (h1 := <[x := Var_ctor v]> h0).
  assert (chain h1 x v [] [x] x v) as Hch0.
  { apply chain_leaf. unfold h1. by rewrite lookup_insert_eq. }
  destruct (chain_build_spec us [] h1 x [x] v x v Hch0)
    as (f & h & ns & -> & Hch & Hzero).
  { intros n ->%list_elem_of_singleton. unfold h1. by rewrite lookup_insert_eq. }
  simpl in *.
  destruct (chain_facts _ _ _ _ _ _ _ Hch)
    as (Hnd & Hlast & Hhead & Hin & Hval & _ & _).
  rewrite Hval. simpl.
  rewrite backward_eq.
  rewrite (chain_topo h x v us ns f _ Hch (S (size h)) [] ∅);
    [|pose proof (NoDup_length_le_size h ns Hnd Hin); lia|set_solver].
  simpl. unfold set_grad.
  destruct (h !! f) as [rf|] eqn:Hf; [|done]. simpl.
  set (hseed := <[f := _]> h).
  assert (f ∈ ns) as Hfns.
  { apply list_elem_of_lookup. exists (pred (length ns)).
    by rewrite <- last_lookup. }
  destruct (chain_sweep h x v us ns f _ Hch hseed 1%float)
    as (h' & -> & Hgx).
  - intros n Hn. unfold hseed. destruct (decide (n = f)) as [->|Hne].
    + by rewrite lookup_insert_eq, Hf.
    + by rewrite lookup_insert_ne.
  - unfold hseed. by rewrite lookup_insert_eq.
  - intros n Hn Hne. unfold hseed. rewrite lookup_insert_ne by done.
    by apply Hzero.
  - simpl. by rewrite Hgx.
Qed.

End chain_rule.

(** ** The Python wrapper *)

Section wrapper.
Context {py : CPython} {lm : Libm}.
#[local] Arguments backward : simpl never.
#[local] Arguments op_mul : simpl never.

Lemma new_Var_spec (h : Heap) (d : float) :
  ∃ p, h !! p = None ∧ new_Var h d = (p, <[p := Var_ctor d]> h).
Proof. exists (fresh (dom h)). split; [apply fresh_lookup|done]. Qed.

(** What [get_var] does to the heap: nothing for a handle, one more leaf that
    no handle holds for a number. *)
Lemma get_var_spec (h : Heap) (obj : PyObject) :
  match get_var h obj with
  | None => obj = PyOther
  | Some (var, h') =>
      (obj = PyVar var ∧ h' = h)
      ∨ (is_number obj ∧
         ∃ p d, var = Some p ∧ h !! p = None ∧ h' = <[p := Var_ctor d]> h)
  end.
Proof.
  destruct obj as [var|d|n|]; simpl; [by left| | |done].
  - right. split; [done|]. exists (fresh (dom h)), d.
    split_and!; [done|apply fresh_lookup|done].
  - right. split; [done|]. exists (fresh (dom h)), (long_as_double n).
    split_and!; [done|apply fresh_lookup|done].
Qed.

Lemma get_var_subseteq (h : Heap) (obj : PyObject) var h' :
  get_var h obj = Some (var, h') → h ⊆ h'.
Proof.
  intros Hg. pose proof (get_var_spec h obj) as Hs. rewrite Hg in Hs.
  destruct Hs as [[_ ->]|(_ & p & d & _ & Hp & ->)]; [done|].
  by apply insert_subseteq.
Qed.

(** A builder followed by [make_pyvar]. *)
Lemma build_make_pyvar (b : Builder) (alloc : bool) (h : Heap) h' res :
  ('(r, h1) ← build b h; Some (make_pyvar alloc h1 r)) = Some (h', res) →
  ∃ r v,
    h !! r = None
    ∧ (if alloc then h' = <[r := v]> h ∧ res = Returned (PyVar (Some r))
       else h' = h ∧ res = Raised MemoryError).
Proof.
  intros Hrun. destruct (build b h) as [[r h1]|] eqn:Hb; simplify_eq/=.
  apply build_spec in Hb as (Hr & _ & v & -> & _).
  exists r, v. split; [done|]. unfold make_pyvar in Hrun.
  destruct alloc; simplify_eq; [done|]. by rewrite delete_insert_id.
Qed.

(** The wrappers, reduced to [get_var], a builder and [make_pyvar]. *)
Lemma Var_binary_build (mk : loc → loc → Builder)
    (op : Heap → loc → loc → option (loc * Heap)) alloc h a b :
  (∀ h x y, op h x y = build (mk x y) h) →
  Var_binary op alloc h a b
  = match get_var h a with
    | None => Some (h, NotImplemented)
    | Some (va, h) =>
      match get_var h b with
      | None => Some (h, NotImplemented)
      | Some (vb, h) =>
          va ← va; vb ← vb;
          '(r, h) ← build (mk va vb) h;
          Some (make_pyvar alloc h r)
      end
    end.
Proof.
  intros Hop. unfold Var_binary.
  destruct (get_var h a) as [[va h1]|]; [|done].
  destruct (get_var h1 b) as [[vb h2]|]; [|done].
  destruct va, vb; simpl; try done. by rewrite Hop.
Qed.

Lemma fresh_subseteq (h : Heap) (v : Var) : h ⊆ <[fresh (dom h) := v]> h.
Proof. apply insert_subseteq, fresh_lookup. Qed.

(** Every call in the form: parse, [get_var] per operand, builder,
    [make_pyvar]. *)
Ltac wrapper_unfold :=
  unfold py_call, Var_add, Var_sub, Var_mul, Var_div, Var_binary, Var_neg,
    autodiff_sin, autodiff_cos, autodiff_exp, autodiff_log, autodiff_pow,
    autodiff_unary in *.

Ltac to_build :=
  change (op_add ?h ?a ?b) with (build (BAdd a b) h) in *;
  change (op_sub ?h ?a ?b) with (build (BSub a b) h) in *;
  change (op_mul ?h ?a ?b) with (build (BMul a b) h) in *;
  change (op_div ?h ?a ?b) with (build (BDiv a b) h) in *;
  change (op_neg ?h ?a) with (build (BNeg a) h) in *;
  change (op_sin ?h ?a) with (build (BSin a) h) in *;
  change (op_cos ?h ?a) with (build (BCos a) h) in *;
  change (op_exp ?h ?a) with (build (BExp a) h) in *;
  change (op_log ?h ?a) with (build (BLog a) h) in *;
  change (op_pow ?h ?a ?n) with (build (BPow a n) h) in *.

(** X12. No operator and no module function of the wrapper modifies or
    deletes a node that exists: whatever the operands, also when they are
    rejected or when the interpreter is out of memory, every node of the heap
    is the same record after the call. *)
Theorem wrapper_keeps_graph (alloc : bool) (h : Heap) (c : PyCall)
    (h' : Heap) (res : PyResult) :
  py_call alloc h c = Some (h', res) → h ⊆ h'.
Proof.
  intros Hcall.
  assert (∀ b hx,
    h ⊆ hx →
    ('(r, h1) ← build b hx; Some (make_pyvar alloc h1 r)) = Some (h', res) →
    h ⊆ h') as Hfinish.
  { clear. intros b hx Hsub (r & v & Hr & Halloc)%build_make_pyvar.
    destruct alloc; destruct Halloc as [-> _]; [|done].
    etrans; [done|]. by apply insert_subseteq. }
  destruct c as [a b|a b|a b|a b|a|args|args|args|args|args];
    wrapper_unfold.
  1-4: destruct a as [[pa|]|da|na|], b as [[pb|]|db|nb|]; simpl in Hcall;
    simplify_eq; try done; try (by apply fresh_subseteq);
    to_build; (eapply Hfinish; [|exact Hcall]);
    repeat (etrans; [|apply fresh_subseteq]); done.
  1: destruct a as [[pa|]|da|na|]; simpl in Hcall;
    simplify_eq; try done;
    to_build; (eapply Hfinish; [|exact Hcall]);
    repeat (etrans; [|apply fresh_subseteq]); done.
  1-4: destruct args as [|[[pa|]|da|na|] [|o2 rest]]; simpl in Hcall;
    simplify_eq; try done;
    to_build; (eapply Hfinish; [|exact Hcall]);
    repeat (etrans; [|apply fresh_subseteq]); done.
  destruct args as [|o1 [|o2 [|o3 rest]]]; simpl in Hcall;
    simplify_eq; try done.
  destruct (arg_as_double o2) as [n|]; simplify_eq; [|done].
  destruct o1 as [[pa|]|da|na|]; simpl in Hcall;
    simplify_eq; try done;
    to_build; (eapply Hfinish; [|exact Hcall]);
    repeat (etrans; [|apply fresh_subseteq]); done.
Qed.

Lemma build_make_pyvar_result (b : Builder) (alloc : bool) (h : Heap) h' res :
  ('(r, h1) ← build b h; Some (make_pyvar alloc h1 r)) = Some (h', res) →
  if alloc then ∃ r, res = Returned (PyVar (Some r))
  else res = Raised MemoryError ∧ h' = h.
Proof.
  intros (r & v & _ & Halloc)%build_make_pyvar.
  destruct alloc; destruct Halloc as [-> ->]; eauto.
Qed.

(** X13. What a rejected call leaves behind.  When an operator answers
    [NotImplemented], or a module function raises for its arguments, the heap
    is unchanged, with one exception: a binary operator whose first operand
    is a Python number and whose second operand is of no accepted type has
    already made the constant leaf of the first operand, and this node, which
    no handle holds, stays in the heap. *)
Theorem wrapper_rejection (alloc : bool) (h : Heap) (c : PyCall)
    (h' : Heap) (res : PyResult) :
  py_call alloc h c = Some (h', res) →
  res = NotImplemented ∨ res = Raised ExpectedVarOrNumber
    ∨ res = Raised ArgumentError →
  h' = h
  ∨ ∃ a p d,
      binary_operands c = Some (a, PyOther) ∧ number_value a = Some d
      ∧ res = NotImplemented
      ∧ h !! p = None ∧ h' = <[p := Var_ctor d]> h.
Proof.
  intros Hcall Hres.
  assert (∀ b hx,
    ('(r, h1) ← build b hx; Some (make_pyvar alloc h1 r)) = Some (h', res) →
    False) as Hfinish.
  { intros b hx Hrun%build_make_pyvar_result.
    destruct alloc; [destruct Hrun as [r ->]|destruct Hrun as [-> _]];
      naive_solver. }
  destruct c as [a b|a b|a b|a b|a|args|args|args|args|args];
    wrapper_unfold.
  1-4: destruct a as [[pa|]|da|na|], b as [[pb|]|db|nb|]; simpl in *;
    simplify_eq; try (by left); to_build;
    try (by exfalso; eapply Hfinish);
    right; eexists _, (fresh (dom h)), _;
    (split_and!; [done|done|done|apply fresh_lookup|done]).
  1: destruct a as [[pa|]|da|na|]; simpl in *;
    simplify_eq; try (by left); to_build; by exfalso; eapply Hfinish.
  1-4: destruct args as [|[[pa|]|da|na|] [|o2 rest]]; simpl in *;
    simplify_eq; try (by left); to_build; by exfalso; eapply Hfinish.
  destruct args as [|o1 [|o2 [|o3 rest]]]; simpl in *;
    simplify_eq; try (by left).
  destruct (arg_as_double o2) as [n|]; simplify_eq; [|by left].
  destruct o1 as [[pa|]|da|na|]; simpl in *;
    simplify_eq; try (by left); to_build; by exfalso; eapply Hfinish.
Qed.

(** X14. When the interpreter has no memory for the result handle, no call
    returns an object, and the result node the builder has just made is
    deleted again: if no operand is a Python number, the heap after the call
    is the heap before it. *)
Theorem wrapper_out_of_memory (h : Heap) (c : PyCall)
    (h' : Heap) (res : PyResult) :
  py_call false h c = Some (h', res) →
  (∀ o, res ≠ Returned o)
  ∧ (Forall (λ o, number_value o = None) (py_operands c) → h' = h).
Proof.
  intros Hcall.
  assert (∀ b hx,
    ('(r, h1) ← build b hx; Some (make_pyvar false h1 r)) = Some (h', res) →
    (∀ o, res ≠ Returned o) ∧ h' = hx) as Hfinish.
  { intros b hx [-> ->]%build_make_pyvar_result. done. }
  destruct c as [a b|a b|a b|a b|a|args|args|args|args|args];
    wrapper_unfold.
  1-4: destruct a as [[pa|]|da|na|], b as [[pb|]|db|nb|]; simpl in *;
    simplify_eq; to_build;
    try (apply Hfinish in Hcall as [? ->]);
    (split; [done|]);
    rewrite ?Forall_cons; simpl; naive_solver.
  1: destruct a as [[pa|]|da|na|]; simpl in *;
    simplify_eq; to_build;
    try (apply Hfinish in Hcall as [? ->]);
    (split; [done|]);
    rewrite ?Forall_cons; simpl; naive_solver.
  1-4: destruct args as [|[[pa|]|da|na|] [|o2 rest]]; simpl in *;
    simplify_eq; to_build;
    try (apply Hfinish in Hcall as [? ->]);
    (split; [done|]);
    rewrite ?Forall_cons; simpl; naive_solver.
  destruct args as [|o1 [|o2 [|o3 rest]]]; simpl in *;
    simplify_eq; try done.
  destruct (arg_as_double o2) as [n|]; simplify_eq; [|done].
  destruct o1 as [[pa|]|da|na|]; simpl in *;
    simplify_eq; to_build;
    try (apply Hfinish in Hcall as [? ->]);
    (split; [done|]);
    rewrite ?Forall_cons; simpl; naive_solver.
Qed.

(** X15. The wrapper never fails on live handles: when every handle among
    the operands holds the address of a node of the heap, each operator and
    module function returns to the interpreter, with an object, with
    [NotImplemented] or with an exception set, whatever else it is given. *)
Theorem wrapper_returns (alloc : bool) (h : Heap) (c : PyCall) :
  Forall (live h) (py_operands c) → is_Some (py_call alloc h c).
Proof.
  intros Hlive.
  assert (∀ b hx,
    (∀ a, a ∈ operands b → is_Some (hx !! a)) →
    is_Some ('(r, h1) ← build b hx; Some (make_pyvar alloc h1 r))) as Hfinish.
  { intros b hx [[r h1] ->]%build_total. done. }
  assert (∀ p v, is_Some (h !! p) → is_Some (<[fresh (dom h) := v]> h !! p))
    as Hkeep.
  { intros p v Hp. by eapply lookup_weaken_is_Some; [|apply fresh_subseteq]. }
  destruct c as [a b|a b|a b|a b|a|args|args|args|args|args];
    wrapper_unfold;
    [destruct a as [[pa|]|da|na|], b as [[pb|]|db|nb|]..
    |destruct a as [[pa|]|da|na|]
    |destruct args as [|[[pa|]|da|na|] [|o2 rest]]
    |destruct args as [|[[pa|]|da|na|] [|o2 rest]]
    |destruct args as [|[[pa|]|da|na|] [|o2 rest]]
    |destruct args as [|[[pa|]|da|na|] [|o2 rest]]
    |destruct args as [|o1 [|o2 [|o3 rest]]];
      [| |destruct (arg_as_double o2) as [n|];
          [destruct o1 as [[pa|]|da|na|]|]|]].
  all: simpl in *; rewrite ?Forall_cons in Hlive; simpl in Hlive;
    try done; try naive_solver; to_build;
    apply Hfinish; simpl; intros x Hx;
    repeat (apply elem_of_cons in Hx as [->|Hx]);
    try (by apply elem_of_nil in Hx);
    rewrite ?lookup_insert_eq; try done;
    repeat (first [rewrite lookup_insert_eq; done | apply Hkeep
                  | eapply lookup_weaken_is_Some; [|apply fresh_subseteq]]);
    naive_solver.
Qed.

(** X16. A handle times a Python number.  For [x = Var(v)] and a [float]
    or [int] [c] read as the [double] [d], [f = x * c] has the value
    [v * d], and after [f.backward()] the gradient of [x] is [0.0 + d]: the
    number becomes a constant leaf of the graph, which takes part in the
    pass like any other node. *)
Theorem scaled_by_number (h0 : Heap) (v : float) (c : PyObject) (d : float) :
  arg_as_double (PyFloat v) = Some v → number_value c = Some d →
  scaled_run h0 v c = Some ((v * d)%float, (0 + d)%float).
Proof.
  intros Harg Hc.
  pose proof (binary_run_mul h0 v d) as Hrun.
  unfold binary_run, new_Var in Hrun. simpl in Hrun.
  unfold scaled_run, Var_init, Var_mul, Var_binary, new_Var.
  rewrite Harg. simpl.
  assert (get_var (<[fresh (dom h0) := Var_ctor v]> h0) c
          = Some (Some (fresh (dom (<[fresh (dom h0) := Var_ctor v]> h0))),
                  <[fresh (dom (<[fresh (dom h0) := Var_ctor v]> h0))
                    := Var_ctor d]> (<[fresh (dom h0) := Var_ctor v]> h0)))
    as ->.
  { destruct c; simplify_eq/=; done. }
  simpl.
  destruct (op_mul _ _ _) as [[f h2]|]; simpl in *; [|done].
  unfold Var_val, Var_backward, Var_grad. simpl.
  destruct (h2 !! f) as [vf|]; simpl in *; [|done].
  destruct (backward h2 f) as [h3|]; simpl in *; [|done].
  destruct (h3 !! fresh (dom h0)) as [vx|]; simpl in *; [|done].
  destruct (h3 !! _) as [vc|]; simpl in *; [|done].
  injection Hrun as -> -> _. done.
Qed.

(** X17. Freeing a handle frees its node, whoever still points to it.  After
    [Var_dealloc] of the handle of node [p], an edge of another node [c] to
    [p] is left dangling, and [backward] from every root that still reaches
    [c] follows it: the traversal reads freed memory. *)
Theorem dealloc_leaves_dangling_edge (h : Heap) (p root c : loc) :
  edge h c p → c ≠ p → reach (delete p h) root c →
  ¬ closed (Var_dealloc h (PyVar (Some p)))
  ∧ Var_backward (Var_dealloc h (PyVar (Some p))) (Some root) = None.
Proof.
  intros (v & e & Hv & He & Hin) Hne Hreach. simpl.
  assert (edge (delete p h) c p) as Hedge.
  { exists v, e. by rewrite lookup_delete_ne. }
  split.
  - intros Hclosed. destruct (Hclosed c p Hedge) as [w Hw].
    by rewrite lookup_delete_eq in Hw.
  - destruct (backward (delete p h) root) as [h1|] eqn:Hb; [|done].
    exfalso. rewrite backward_unfold in Hb.
    destruct (topo_order (delete p h) root) as [order|] eqn:Horder; [|done].
    apply topo_order_visits in Horder as (_ & _ & _ & Hheap).
    destruct (Hheap p) as [w Hw]; [by eapply rtc_r|].
    by rewrite lookup_delete_eq in Hw.
Qed.

End wrapper.

Lemma wrapper_keeps_graph_witness :
  ∃ h' res,
    py_call (H := sample_cpython) (H0 := sample_libm) true composite_graph
      (PyMul (PyVar (Some 3)) (PyLong 2)) = Some (h', res)
    ∧ composite_graph ⊆ h'.
Proof.
  set (out := default (∅, NotImplemented)
    (py_call (H := sample_cpython) (H0 := sample_libm) true composite_graph
       (PyMul (PyVar (Some 3)) (PyLong 2)))).
  assert (py_call (H := sample_cpython) (H0 := sample_libm) true
            composite_graph (PyMul (PyVar (Some 3)) (PyLong 2))
          = Some (out.1, out.2)) as Hcall by (vm_compute; reflexivity).
  exists out.1, out.2. split; [exact Hcall|].
  exact (wrapper_keeps_graph (py := sample_cpython) (lm := sample_libm)
           true composite_graph _ _ _ Hcall).
Defined.

Lemma wrapper_rejection_witness :
  py_call (H := sample_cpython) (H0 := sample_libm) true ∅
    (PyAdd (PyFloat 2) PyOther)
  = Some (<[0 := Var_ctor 2]> ∅, NotImplemented)
  ∧ ((<[0 := Var_ctor 2]> ∅ : Heap) ≠ ∅)
  ∧ ((<[0 := Var_ctor 2]> ∅ : Heap) = ∅
     ∨ ∃ a p d,
         binary_operands (PyAdd (PyFloat 2) PyOther) = Some (a, PyOther)
         ∧ number_value (H := sample_cpython) a = Some d
         ∧ NotImplemented = NotImplemented
         ∧ (∅ : Heap) !! p = None
         ∧ (<[0 := Var_ctor 2]> ∅ : Heap) = <[p := Var_ctor d]> ∅).
Proof.
  split_and!; [vm_compute; reflexivity|apply insert_non_empty|].
  apply (wrapper_rejection (py := sample_cpython) (lm := sample_libm)
           true ∅ (PyAdd (PyFloat 2) PyOther));
    [vm_compute; reflexivity|by left].
Defined.

Lemma wrapper_out_of_memory_witness :
  py_call (H := sample_cpython) (H0 := sample_libm) false composite_graph
    (PyMul (PyVar (Some 3)) (PyVar (Some 2)))
  = Some (composite_graph, Raised MemoryError)
  ∧ (∀ o, Raised MemoryError ≠ Returned o)
  ∧ (Forall (λ o, number_value (H := sample_cpython) o = None)
       (py_operands (PyMul (PyVar (Some 3)) (PyVar (Some 2)))) →
     composite_graph = composite_graph).
Proof.
  split; [vm_compute; reflexivity|].
  apply (wrapper_out_of_memory (py := sample_cpython) (lm := sample_libm)
           composite_graph (PyMul (PyVar (Some 3)) (PyVar (Some 2)))).
  vm_compute. reflexivity.
Defined.

Lemma wrapper_returns_witness :
  is_Some (py_call (H := sample_cpython) (H0 := sample_libm) true
             composite_graph (PyDiv (PyVar (Some 3)) PyOther)).
Proof.
  apply (wrapper_returns (py := sample_cpython) (lm := sample_libm)
           true composite_graph (PyDiv (PyVar (Some 3)) PyOther)).
  repeat constructor. exists 3. split; [done|]. vm_compute. eauto.
Defined.

Lemma scaled_by_number_witness :
  scaled_run (H := sample_cpython) composite_graph 2 (PyLong 3)
  = Some ((2 * 3)%float, (0 + 3)%float).
Proof.
  apply (scaled_by_number (py := sample_cpython) composite_graph 2 (PyLong 3) 3);
    reflexivity.
Defined.

Lemma dealloc_leaves_dangling_edge_witness :
  ¬ closed (Var_dealloc composite_graph (PyVar (Some 0)))
  ∧ Var_backward (Var_dealloc composite_graph (PyVar (Some 0))) (Some 3) = None.
Proof.
  apply (dealloc_leaves_dangling_edge composite_graph 0 3 3).
  - assert (is_Some (composite_graph !! 3)) as [v Hv] by (vm_compute; eauto).
    assert ((λ v, input <$> backward_edges v) <$> composite_graph !! 3
            = Some [2; 0]) as Hin by (vm_compute; reflexivity).
    rewrite Hv in Hin. simpl in Hin.
    destruct (backward_edges v) as [|e1 [|e2 l]] eqn:Hedges; simplify_eq/=.
    exists v, e2. rewrite Hedges. split_and!; [done|set_solver|done].
  - done.
  - apply rtc_refl.
Defined.
